(** * chanleakcheck: the CVE-2019-12999 audit of an lnd node

    A shallow embedding of [main.go].  The program lists the node's open
    channels, compares each one's capacity with the channel graph, and, if
    some channel is invalid, replays the forwarding history to attribute a
    signed amount to channels.

    Go's fixed-width integers are integers of [Z] with the wrap-around
    written out; Go maps are [gmap]s, the map used as a set is a [gset];
    what the program prints and the RPCs it issues are recorded in a trace. *)

From Stdlib Require Import ZArith Lia.
From stdpp Require Import base gmap sets list strings.

Local Open Scope Z_scope.

(** ** Machine integers *)

Definition uint64 (z : Z) : Z := z mod 2 ^ 64.
Definition uint32 (z : Z) : Z := z mod 2 ^ 32.
Definition uint16 (z : Z) : Z := z mod 2 ^ 16.

(** Two's complement reading of the low 64 bits: the conversion of a
    [uint64] to [int64], and the result of [int64] arithmetic. *)
Definition int64 (z : Z) : Z := (z + 2 ^ 63) mod 2 ^ 64 - 2 ^ 63.

Definition is_uint64 (z : Z) : Prop := 0 <= z < 2 ^ 64.
Definition is_int64 (z : Z) : Prop := - 2 ^ 63 <= z < 2 ^ 63.

(** ** Package lnwire *)

Module lnwire.

(** Modelled from the spec: the structured form of a ChannelID, the triple
    (block height, transaction index, output index); the struct
    [lnwire.ShortChannelID] is declared in the vendored lnd package. *)
Record ShortChannelID : Type := mkShortChannelID {
  BlockHeight : Z;  (* uint32 *)
  TxIndex : Z;      (* uint32 *)
  TxPosition : Z    (* uint16 *)
}.

#[export] Instance ShortChannelID_eq_dec : EqDecision ShortChannelID.
Proof. solve_decision. Defined.

#[export] Instance ShortChannelID_countable : Countable ShortChannelID.
Proof.
  refine (inj_countable'
            (fun c => (BlockHeight c, TxIndex c, TxPosition c))
            (fun t => mkShortChannelID t.1.1 t.1.2 t.2) _).
  intros []; reflexivity.
Defined.

(** Modelled from the spec: [lnwire.NewShortChanIDFromInt] lives in the
    vendored lnd package, not in [main.go].  The spec's ChannelID is "a
    64-bit integer encoding (block height, transaction index, output
    index)"; the layout is lnd's: 3 bytes of block height, 3 bytes of
    transaction index, 2 bytes of output index. *)
Definition NewShortChanIDFromInt (chanID : Z) : ShortChannelID :=
  {| BlockHeight := uint32 (Z.shiftr chanID 40);
     TxIndex := Z.land (uint32 (Z.shiftr chanID 16)) 0xFFFFFF;
     TxPosition := uint16 chanID |}.

(** Modelled from the spec: [ShortChannelID.ToUint64], the other direction
    of the same encoding, also in the vendored lnd package. *)
Definition ToUint64 (c : ShortChannelID) : Z :=
  Z.lor (Z.lor (uint64 (Z.shiftl (BlockHeight c) 40))
               (uint64 (Z.shiftl (TxIndex c) 16)))
        (TxPosition c).

End lnwire.
Export lnwire.

(** ** Package lnrpc: the fields of the RPC messages that [main] reads *)

Module lnrpc.

(** Modelled from the spec: an entry of the channel listing, "its
    ChannelID and self-reported capacity"; the message [lnrpc.Channel] is
    declared in the vendored lnd package. *)
Record Channel : Type := mkChannel {
  ChanId : Z;    (* uint64 *)
  Capacity : Z   (* int64 *)
}.

(** Modelled from the spec: the authoritative capacity of a channel that
    the channel graph knows; the message [lnrpc.ChannelEdge] is declared in
    the vendored lnd package, the field is its [Capacity]. *)
Record ChannelEdge : Type := mkChannelEdge {
  EdgeCapacity : Z   (* int64 *)
}.

(** Modelled from the spec: a forwarding event, "inbound ChannelID,
    outbound ChannelID, amount received inbound, amount sent outbound, fee
    earned"; the message [lnrpc.ForwardingEvent] is declared in the
    vendored lnd package, with unsigned 64-bit fields. *)
Record ForwardingEvent : Type := mkForwardingEvent {
  ChanIdIn : Z;   (* uint64 *)
  ChanIdOut : Z;  (* uint64 *)
  AmtIn : Z;      (* uint64 *)
  AmtOut : Z;     (* uint64 *)
  Fee : Z         (* uint64 *)
}.

End lnrpc.
Export lnrpc.

(** ** The lnd node, as [main] sees it *)

Definition error : Type := string.

(** A Go return pair [(value, err)]: either the value or a non-nil error. *)
Inductive result (A : Type) : Type :=
| Ok (a : A)
| Err (err : error).
Arguments Ok {A} a.
Arguments Err {A} err.

Definition is_Err {A : Type} (r : result A) : Prop :=
  match r with Ok _ => False | Err _ => True end.

(** The three RPCs of the client.  [GetChanInfo] is the channel graph's
    answer for a raw channel id; [ForwardingHistory] is the answer to the
    one request [main] makes (start time 1, end time now, [math.MaxUint32]
    events at most). *)
Record LndClient : Type := mkLndClient {
  ListChannels : result (list Channel);
  GetChanInfo : Z → result ChannelEdge;
  ForwardingHistory : result (list ForwardingEvent)
}.

(** Go leaves the order in which [range] visits a map unspecified: the
    order is an input of a run.  Both maps that [main] ranges over have
    channel ids as keys and amounts as values. *)
Record MapOrder : Type := mkMapOrder {
  range : gmap ShortChannelID Z → list (ShortChannelID * Z);
  range_perm : ∀ m, range m ≡ₚ map_to_list m
}.

Definition canonicalOrder : MapOrder :=
  {| range := map_to_list; range_perm := λ m, reflexivity (map_to_list m) |}.

(** ** What a run does: log lines and RPCs, in program order *)

(** An argument handed to a [log] format. *)
Inductive Value : Type :=
| VCid (cid : ShortChannelID)
| VAmount (a : Z)       (* btcutil.Amount *)
| VInt64 (n : Z)
| VLen (n : nat)
| VErr (err : error).

Inductive Effect : Type :=
| Printf (format : string) (args : list Value)
| Fatalf (format : string) (args : list Value)
| CallListChannels
| CallGetChanInfo (chanId : Z)
| CallForwardingHistory.

#[export] Instance Value_eq_dec : EqDecision Value.
Proof. solve_decision. Defined.
#[export] Instance Effect_eq_dec : EqDecision Effect.
Proof. solve_decision. Defined.

(** How [main] ends. *)
Inductive Outcome : Type :=
| Exited         (* log.Fatalf: the process exits with status 1 *)
| NotAffected    (* the early return when no invalid channel was found *)
| Quantified (chanForwardHistory : gmap ShortChannelID Z) (totalLoss : Z).

(** ** [main] *)

(** Lines 81-86: the subjective view of the channels and their capacities. *)
Definition buildSubjectiveChanView (channels : list Channel)
  : gmap ShortChannelID Z :=
  foldl (λ subjectiveChanView channel,
           let cid := NewShortChanIDFromInt (ChanId channel) in
           <[cid := Capacity channel]> subjectiveChanView)
        ∅ channels.

(** Lines 96-127: one iteration of the loop over the subjective view. *)
Definition checkChannel (lndClient : LndClient)
    (st : gset ShortChannelID * list Effect) (entry : ShortChannelID * Z)
  : gset ShortChannelID * list Effect :=
  let '(invalidChannels, log) := st in
  let '(cid, subjectiveSize) := entry in
  let log := log ++ [CallGetChanInfo (ToUint64 cid)] in
  match GetChanInfo lndClient (ToUint64 cid) with
  | Err err =>
      ({[cid]} ∪ invalidChannels,
       log ++ [Printf "unable to obtain graph channel for cid(%v): %v"
                      [VCid cid; VErr err]])
  | Ok graphChan =>
      if decide (EdgeCapacity graphChan ≠ subjectiveSize) then
        ({[cid]} ∪ invalidChannels,
         log ++ [Printf "**** FAKE CHANNEL FOUND ****" [];
                 Printf "CID: %v" [];
                 Printf "Actual channel value: %v"
                        [VInt64 (EdgeCapacity graphChan)];
                 Printf "Subjective channel value: %v"
                        [VAmount subjectiveSize];
                 Printf "****************************" []])
      else (invalidChannels, log)
  end.

(** [m[cid] += delta] on a map of [btcutil.Amount]: a missing key reads as
    zero, and the key is present afterwards. *)
Definition addAmount (m : gmap ShortChannelID Z) (cid : ShortChannelID)
    (delta : Z) : gmap ShortChannelID Z :=
  <[cid := int64 (default 0 (m !! cid) + delta)]> m.

(** Lines 157-184: one iteration of the loop over the forwarding events. *)
Definition recordForward (invalidChannels : gset ShortChannelID)
    (chanForwardHistory : gmap ShortChannelID Z) (fwdEvent : ForwardingEvent)
  : gmap ShortChannelID Z :=
  let cidIn := NewShortChanIDFromInt (ChanIdIn fwdEvent) in
  let cidOut := NewShortChanIDFromInt (ChanIdOut fwdEvent) in
  let incomingInvalidChan := bool_decide (cidIn ∈ invalidChannels) in
  let outgoingInvalidChan := bool_decide (cidOut ∈ invalidChannels) in
  if negb (incomingInvalidChan || outgoingInvalidChan) then
    chanForwardHistory
  else
    let chanForwardHistory :=
      addAmount chanForwardHistory cidIn
        (int64 (- int64 (uint64 (AmtIn fwdEvent - Fee fwdEvent)))) in
    addAmount chanForwardHistory cidOut (int64 (AmtOut fwdEvent)).

(** Lines 189-193: one iteration of the loop over the per-channel amounts. *)
Definition reportLoss (st : Z * list Effect) (entry : ShortChannelID * Z)
  : Z * list Effect :=
  let '(totalLoss, log) := st in
  let '(chanID, amtLost) := entry in
  (int64 (totalLoss + amtLost),
   log ++ [Printf "FakeChannel(%v) resulted in loss of: %v"
                  [VCid chanID; VAmount amtLost]]).

(** The three loops, each from its initial state. *)
Definition detectInvalid (lndClient : LndClient) (log : list Effect)
    (entries : list (ShortChannelID * Z)) : gset ShortChannelID * list Effect :=
  foldl (checkChannel lndClient) (∅, log) entries.

Definition quantify (invalidChannels : gset ShortChannelID)
    (forwardingEvents : list ForwardingEvent) : gmap ShortChannelID Z :=
  foldl (recordForward invalidChannels) ∅ forwardingEvents.

Definition sumLosses (log : list Effect) (entries : list (ShortChannelID * Z))
  : Z * list Effect :=
  foldl reportLoss (0, log) entries.

Definition main (order : MapOrder) (NewBasicClient : result LndClient)
  : list Effect * Outcome :=
  match NewBasicClient with
  | Err err => ([Fatalf "unable to create client: %v" [VErr err]], Exited)
  | Ok lndClient =>
    let log := [CallListChannels] in
    match ListChannels lndClient with
    | Err err =>
        (log ++ [Fatalf "unable to obtain channels: %v" [VErr err]], Exited)
    | Ok channels =>
      let log :=
        log ++ [Printf "Obtaining candidate set of invalidate channels..." []] in
      let subjectiveChanView := buildSubjectiveChanView channels in
      let log := log ++ [Printf "Filtering out valid channels..." []] in
      let checked :=
        detectInvalid lndClient log (range order subjectiveChanView) in
      let invalidChannels := checked.1 in
      let log :=
        checked.2 ++ [Printf "Num invalid channels found: %v"
                             [VLen (size invalidChannels)]] in
      if decide (size invalidChannels = 0%nat) then
        (log ++ [Printf "Your node was not affected by CVE-2019-12999!" []],
         NotAffected)
      else
        let log :=
          log ++ [Printf "Quantifying amount lost due to forwards over invalid channels..." [];
                  CallForwardingHistory] in
        match ForwardingHistory lndClient with
        | Err err =>
            (log ++ [Fatalf "unable to obtain forwarding history: %v"
                            [VErr err]],
             Exited)
        | Ok forwardingEvents =>
            let chanForwardHistory :=
              quantify invalidChannels forwardingEvents in
            let summed := sumLosses log (range order chanForwardHistory) in
            let totalLoss := summed.1 in
            (summed.2 ++ [Printf "Amount lost: %v" [VAmount totalLoss]],
             Quantified chanForwardHistory totalLoss)
        end
    end
  end.

(** The invalid channels that the loop over [subjectiveChanView] finds. *)
Definition invalidChannelsOf (order : MapOrder) (lndClient : LndClient)
    (subjectiveChanView : gmap ShortChannelID Z) : gset ShortChannelID :=
  (detectInvalid lndClient [] (range order subjectiveChanView)).1.

(** The capacity of the last channel of the listing whose id decodes to
    [cid], if there is one. *)
Definition lastListed (cid : ShortChannelID) (channels : list Channel)
  : option Z :=
  Capacity <$>
    last (filter (λ c, NewShortChanIDFromInt (ChanId c) = cid) channels).

(** What the channel graph says against a subjective capacity: the query
    failed, or it answered with another capacity. *)
Definition disagrees (lndClient : LndClient) (cid : ShortChannelID)
    (subjectiveSize : Z) : Prop :=
  match GetChanInfo lndClient (ToUint64 cid) with
  | Err _ => True
  | Ok graphChan => EdgeCapacity graphChan ≠ subjectiveSize
  end.

#[export] Instance disagrees_dec lndClient cid subjectiveSize :
  Decision (disagrees lndClient cid subjectiveSize).
Proof.
  unfold disagrees.
  destruct (GetChanInfo lndClient (ToUint64 cid)); apply _.
Defined.

(** The sum of the amounts of a list of ledger entries, unbounded. *)
Definition sumAmounts (entries : list (ShortChannelID * Z)) : Z :=
  foldr (λ entry acc, entry.2 + acc) 0 entries.

(** The effects that the loop over the subjective view can add to the
    trace. *)
Definition isDetectorEffect (e : Effect) : bool :=
  match e with
  | CallGetChanInfo _ => true
  | Printf format _ =>
      bool_decide
        (format ∈ ["unable to obtain graph channel for cid(%v): %v";
                   "**** FAKE CHANNEL FOUND ****";
                   "CID: %v";
                   "Actual channel value: %v";
                   "Subjective channel value: %v";
                   "****************************"])
  | _ => false
  end.

(** ** Auxiliary definitions of the proofs *)

(** The effects of one iteration, apart from the state it starts in. *)
Definition channelEffects (lndClient : LndClient)
    (entry : ShortChannelID * Z) : list Effect :=
  (checkChannel lndClient (∅, []) entry).2.

(** The lines of the per-channel breakdown. *)
Definition lossLines (entries : list (ShortChannelID * Z)) : list Effect :=
  (λ entry, Printf "FakeChannel(%v) resulted in loss of: %v"
                   [VCid entry.1; VAmount entry.2]) <$> entries.

(** The arguments of a log line. *)
Definition effectArgs (e : Effect) : list Value :=
  match e with
  | Printf _ args | Fatalf _ args => args
  | _ => []
  end.

(** The trace up to the count of invalid channels. *)
Definition detectorLog (order : MapOrder) (lndClient : LndClient)
    (channels : list Channel) : list Effect :=
  [CallListChannels;
   Printf "Obtaining candidate set of invalidate channels..." [];
   Printf "Filtering out valid channels..." []]
  ++ (range order (buildSubjectiveChanView channels)
        ≫= channelEffects lndClient)
  ++ [Printf "Num invalid channels found: %v"
        [VLen (size (invalidChannelsOf order lndClient
                       (buildSubjectiveChanView channels)))]].

(** The unbounded sum of the entries of a ledger. *)
Definition ledgerSum (m : gmap ShortChannelID Z) : Z :=
  sumAmounts (map_to_list m).

(** The amounts that one processed event adds to its two entries. *)
Definition eventNet (fwdEvent : ForwardingEvent) : Z :=
  int64 (- int64 (uint64 (AmtIn fwdEvent - Fee fwdEvent)))
  + int64 (AmtOut fwdEvent).

(** The test of lines 163-167, as a proposition: the loop over the
    forwarding events processes an event when its inbound or its outbound
    channel is invalid, and skips it otherwise. *)
Definition touchesInvalid (invalidChannels : gset ShortChannelID)
    (fwdEvent : ForwardingEvent) : Prop :=
  NewShortChanIDFromInt (ChanIdIn fwdEvent) ∈ invalidChannels ∨
  NewShortChanIDFromInt (ChanIdOut fwdEvent) ∈ invalidChannels.

#[export] Instance touchesInvalid_dec invalidChannels fwdEvent :
  Decision (touchesInvalid invalidChannels fwdEvent).
Proof. unfold touchesInvalid. apply _. Defined.

(** What one processed event adds to the entry of [cid], unbounded:
    -(AmtIn - Fee) if [cid] is its inbound channel, plus +AmtOut if [cid]
    is its outbound channel. *)
Definition contribution (cid : ShortChannelID) (fwdEvent : ForwardingEvent)
  : Z :=
  (if decide (NewShortChanIDFromInt (ChanIdIn fwdEvent) = cid)
   then - (AmtIn fwdEvent - Fee fwdEvent) else 0)
  + (if decide (NewShortChanIDFromInt (ChanIdOut fwdEvent) = cid)
     then AmtOut fwdEvent else 0).

(** The unbounded sum of a quantity over the events that are processed. *)
Definition sumProcessed (invalidChannels : gset ShortChannelID)
    (amount : ForwardingEvent → Z) (events : list ForwardingEvent) : Z :=
  foldr (λ fwdEvent acc, amount fwdEvent + acc) 0
        (filter (touchesInvalid invalidChannels) events).

(** The raw channel ids that a trace queries the channel graph for, in
    order. *)
Definition getChanInfoCalls (trace : list Effect) : list Z :=
  omap (λ e, match e with CallGetChanInfo chanId => Some chanId | _ => None end)
       trace.

(** * Scenarios *)

(** Two channels: funding outputs 0 and 1 of transaction 1203 in block
    596000. *)
Definition cidA : ShortChannelID :=
  {| BlockHeight := 596000; TxIndex := 1203; TxPosition := 0 |}.
Definition cidB : ShortChannelID :=
  {| BlockHeight := 596000; TxIndex := 1203; TxPosition := 1 |}.
Definition chanA : Z := ToUint64 cidA.
Definition chanB : Z := ToUint64 cidB.

(** The forward of the end-to-end scenario: in over A, out over B. *)
Definition forwardAB : ForwardingEvent :=
  {| ChanIdIn := chanA; ChanIdOut := chanB;
     AmtIn := 100000; AmtOut := 99900; Fee := 100 |}.

(** A second forward, in the other direction. *)
Definition forwardBA : ForwardingEvent :=
  {| ChanIdIn := chanB; ChanIdOut := chanA;
     AmtIn := 2000; AmtOut := 1990; Fee := 10 |}.

(** The node believes in channel A; the channel graph does not know it. *)
Definition nodeNotFound : LndClient :=
  {| ListChannels := Ok [mkChannel chanA 500000];
     GetChanInfo := λ _, Err "edge not found";
     ForwardingHistory := Ok [forwardAB] |}.

(** The channel graph knows channel A with the capacity the node believes. *)
Definition nodeMatch : LndClient :=
  {| ListChannels := Ok [mkChannel chanA 500000];
     GetChanInfo := λ _, Ok (mkChannelEdge 500000);
     ForwardingHistory := Ok [forwardAB] |}.

(** The channel graph knows channel A with a smaller capacity; nothing was
    forwarded. *)
Definition nodeMismatch : LndClient :=
  {| ListChannels := Ok [mkChannel chanA 500000];
     GetChanInfo := λ _, Ok (mkChannelEdge 400000);
     ForwardingHistory := Ok [] |}.

(** The entry-wise wrapped sum of two ledgers. *)
Definition mergeLedgers (m1 m2 : gmap ShortChannelID Z)
  : gmap ShortChannelID Z :=
  union_with (λ a b, Some (int64 (a + b))) m1 m2.

(** A third channel, in the next block. *)
Definition cidC : ShortChannelID :=
  {| BlockHeight := 596001; TxIndex := 7; TxPosition := 0 |}.
Definition chanC : Z := ToUint64 cidC.

(** A forward between the channels B and C. *)
Definition forwardBC : ForwardingEvent :=
  {| ChanIdIn := chanB; ChanIdOut := chanC;
     AmtIn := 5000; AmtOut := 4990; Fee := 10 |}.

(** The node lists A twice and B once; the channel graph knows B with the
    capacity the node believes, and fails for every other id. *)
Definition nodeTwoChannels : LndClient :=
  {| ListChannels :=
       Ok [mkChannel chanA 500000; mkChannel chanB 300000;
           mkChannel chanA 700000];
     GetChanInfo := λ chanId,
       if decide (chanId = chanB) then Ok (mkChannelEdge 300000)
       else Err "edge not found";
     ForwardingHistory := Ok [forwardAB; forwardBC; forwardBA] |}.

(** * Properties *)

(** Refutes that a value is among the elements of an explicit list. *)
Ltac not_listed H :=
  repeat (apply elem_of_cons in H as [H|H]; [discriminate H|]);
  by apply elem_of_nil in H.

(** ** Wrap-around arithmetic *)

Lemma int64_range z : is_int64 (int64 z).
Proof.
  unfold is_int64, int64.
  pose proof (Z.mod_pos_bound (z + 2 ^ 63) (2 ^ 64)). lia.
Qed.

Lemma int64_small z : is_int64 z → int64 z = z.
Proof.
  unfold is_int64, int64. intros Hz.
  rewrite Z.mod_small by lia. lia.
Qed.

Lemma int64_add_l a b : int64 (int64 a + b) = int64 (a + b).
Proof.
  unfold int64. f_equal.
  replace ((a + 2 ^ 63) mod 2 ^ 64 - 2 ^ 63 + b + 2 ^ 63)
    with ((a + 2 ^ 63) mod 2 ^ 64 + b) by lia.
  rewrite Z.add_mod_idemp_l by lia. f_equal. lia.
Qed.

Lemma int64_add_r a b : int64 (a + int64 b) = int64 (a + b).
Proof. by rewrite Z.add_comm, int64_add_l, Z.add_comm. Qed.

Lemma int64_opp a : int64 (- int64 a) = int64 (- a).
Proof.
  unfold int64. f_equal.
  replace (- ((a + 2 ^ 63) mod 2 ^ 64 - 2 ^ 63) + 2 ^ 63)
    with (2 ^ 64 - (a + 2 ^ 63) mod 2 ^ 64) by lia.
  rewrite Zminus_mod_idemp_r. f_equal. lia.
Qed.

Lemma int64_uint64 a : int64 (uint64 a) = int64 a.
Proof.
  unfold int64, uint64. f_equal.
  by rewrite Z.add_mod_idemp_l by lia.
Qed.

Create Rewrite HintDb int64.
#[export] Hint Rewrite int64_add_l int64_add_r int64_opp int64_uint64 : int64.

(** ** The channel id encoding *)

Lemma testbit_uint64 z i :
  Z.testbit (uint64 z) i = (i <? 64) && Z.testbit z i.
Proof. unfold uint64. by rewrite Z.testbit_mod_pow2 by lia. Qed.

Lemma ToUint64_NewShortChanIDFromInt chanID :
  is_uint64 chanID → ToUint64 (NewShortChanIDFromInt chanID) = chanID.
Proof.
  intros Hid. unfold ToUint64, NewShortChanIDFromInt; simpl.
  change 16777215 with (Z.ones 24). rewrite Z.land_ones by lia.
  apply Z.bits_inj'. intros i Hi.
  assert (Hhigh : 64 <= i → Z.testbit chanID i = false).
  { intros ?. rewrite <- (Z.mod_small chanID (2 ^ 64)) by exact Hid.
    apply Z.mod_pow2_bits_high. lia. }
  rewrite !Z.lor_spec, !testbit_uint64.
  rewrite !Z.shiftl_spec by lia.
  unfold uint32, uint16. rewrite !Z.testbit_mod_pow2 by lia.
  assert (i < 16 ∨ 16 <= i < 40 ∨ 40 <= i < 64 ∨ 64 <= i)
    as [?|[?|[?|?]]] by lia;
    repeat match goal with
           | |- context [?a <? ?b] => destruct (Z.ltb_spec a b); try lia
           end;
    simpl;
    rewrite ?(Z.testbit_neg_r _ (i - 40)), ?(Z.testbit_neg_r _ (i - 16)),
      ?Z.shiftr_spec, ?Bool.orb_false_r by lia;
    simpl; rewrite ?Hhigh by lia; try reflexivity; f_equal; lia.
Qed.

Lemma NewShortChanIDFromInt_inj a b :
  is_uint64 a → is_uint64 b →
  NewShortChanIDFromInt a = NewShortChanIDFromInt b → a = b.
Proof.
  intros Ha Hb Heq.
  rewrite <- (ToUint64_NewShortChanIDFromInt a Ha),
          <- (ToUint64_NewShortChanIDFromInt b Hb).
  by rewrite Heq.
Qed.

(** ** The subjective view *)

Lemma filter_none {A : Type} (P : A → Prop) `{!∀ x, Decision (P x)}
    (l : list A) :
  Forall (λ x, ¬ P x) l → filter P l = [].
Proof.
  induction 1 as [|x l Hx _ IH]; [done|].
  by rewrite filter_cons, decide_False.
Qed.

Lemma buildSubjectiveChanView_snoc channels channel :
  buildSubjectiveChanView (channels ++ [channel]) =
  <[NewShortChanIDFromInt (ChanId channel) := Capacity channel]>
    (buildSubjectiveChanView channels).
Proof. unfold buildSubjectiveChanView. by rewrite foldl_snoc. Qed.

Lemma buildSubjectiveChanView_lookup channels cid :
  buildSubjectiveChanView channels !! cid = lastListed cid channels.
Proof.
  induction channels as [|channel channels IH] using rev_ind; [done|].
  rewrite buildSubjectiveChanView_snoc. unfold lastListed.
  rewrite filter_app, filter_cons, filter_nil.
  destruct (decide (NewShortChanIDFromInt (ChanId channel) = cid)) as [->|Hne].
  - by rewrite lookup_insert_eq, last_snoc.
  - by rewrite lookup_insert_ne, app_nil_r.
Qed.

Lemma lastListed_app_cons cid l1 channel l2 :
  NewShortChanIDFromInt (ChanId channel) = cid →
  Forall (λ c, NewShortChanIDFromInt (ChanId c) ≠ cid) l2 →
  lastListed cid (l1 ++ channel :: l2) = Some (Capacity channel).
Proof.
  intros Hc Hl2. unfold lastListed.
  rewrite filter_app, filter_cons, decide_True by done.
  rewrite (filter_none _ l2) by done.
  by rewrite last_snoc.
Qed.

(** In a list without duplicate keys, the entries under a key that occurs
    are that one entry. *)
Lemma filter_key_NoDup {V : Type} (l : list (ShortChannelID * V)) k v :
  NoDup l.*1 → (k, v) ∈ l → filter (λ e, e.1 = k) l = [(k, v)].
Proof.
  induction l as [|[k' v'] l IH]; intros Hnd Hin.
  - by apply elem_of_nil in Hin.
  - apply NoDup_cons in Hnd as [Hk' Hnd]. rewrite filter_cons. simpl.
    apply elem_of_cons in Hin as [Heq|Hin].
    + injection Heq as <- <-. rewrite decide_True by done. f_equal.
      apply filter_none, Forall_forall. intros [k2 v2] Hin2 Hk2.
      simpl in Hk2. subst k2. apply Hk'.
      apply list_elem_of_fmap. by exists (k, v2).
    + rewrite decide_False; [by apply IH|].
      intros ->. apply Hk'. apply list_elem_of_fmap. by exists (k, v).
Qed.

Lemma range_elem_of order (m : gmap ShortChannelID Z) k v :
  (k, v) ∈ range order m ↔ m !! k = Some v.
Proof. by rewrite (range_perm order m), elem_of_map_to_list. Qed.

Lemma range_NoDup_fst order (m : gmap ShortChannelID Z) :
  NoDup (range order m).*1.
Proof. rewrite (range_perm order m). apply NoDup_fst_map_to_list. Qed.

(** ** The loop over the subjective view *)

Section Detector.
Context (lndClient : LndClient).

Lemma checkChannel_fst invalidChannels log cid subjectiveSize :
  (checkChannel lndClient (invalidChannels, log) (cid, subjectiveSize)).1 =
  if decide (disagrees lndClient cid subjectiveSize)
  then {[cid]} ∪ invalidChannels else invalidChannels.
Proof.
  destruct (decide (disagrees lndClient cid subjectiveSize)) as [Hd|Hd];
    unfold disagrees in Hd; unfold checkChannel;
    destruct (GetChanInfo lndClient (ToUint64 cid)) as [graphChan|err];
    simpl; try done.
  - by rewrite decide_True.
  - by rewrite decide_False.
Qed.

Lemma checkChannel_snd invalidChannels log entry :
  (checkChannel lndClient (invalidChannels, log) entry).2 =
  log ++ (checkChannel lndClient (∅, []) entry).2.
Proof.
  unfold checkChannel. destruct entry as [cid subjectiveSize].
  destruct (GetChanInfo lndClient (ToUint64 cid)) as [graphChan|err]; simpl.
  - destruct (decide (EdgeCapacity graphChan ≠ subjectiveSize)); simpl;
      by rewrite <- ?app_assoc.
  - by rewrite <- app_assoc.
Qed.

Lemma foldl_checkChannel_elem_of entries invalidChannels log cid :
  cid ∈ (foldl (checkChannel lndClient) (invalidChannels, log) entries).1 ↔
  cid ∈ invalidChannels ∨
  ∃ subjectiveSize,
    (cid, subjectiveSize) ∈ entries ∧ disagrees lndClient cid subjectiveSize.
Proof.
  revert invalidChannels log.
  induction entries as [|[cid' size'] entries IH]; intros invalidChannels log.
  - simpl. split; [by left|]. intros [?|(? & Hin & _)]; [done|].
    by apply elem_of_nil in Hin.
  - cbn [foldl].
    destruct (checkChannel lndClient (invalidChannels, log) (cid', size'))
      as [invalid' log'] eqn:Hstep.
    rewrite IH. apply (f_equal fst) in Hstep.
    rewrite checkChannel_fst in Hstep. simpl in Hstep. subst invalid'.
    setoid_rewrite elem_of_cons.
    destruct (decide (disagrees lndClient cid' size')) as [Hd|Hd].
    + rewrite elem_of_union, elem_of_singleton. split.
      * intros [[->|?]|(s & ? & ?)]; eauto 6.
      * intros [?|(s & [Heq|?] & ?)]; eauto 6.
        injection Heq as -> ->. eauto.
    + split.
      * intros [?|(s & ? & ?)]; eauto 6.
      * intros [?|(s & [Heq|?] & ?)]; eauto 6.
        injection Heq as -> ->. done.
Qed.

Lemma detectInvalid_fst log entries :
  (detectInvalid lndClient log entries).1 =
  (detectInvalid lndClient [] entries).1.
Proof.
  apply set_eq. intros cid. unfold detectInvalid.
  by rewrite !foldl_checkChannel_elem_of.
Qed.

Lemma foldl_checkChannel_snd entries invalidChannels log :
  (foldl (checkChannel lndClient) (invalidChannels, log) entries).2 =
  log ++ (entries ≫= channelEffects lndClient).
Proof.
  revert invalidChannels log.
  induction entries as [|entry entries IH]; intros invalidChannels log.
  - simpl. by rewrite app_nil_r.
  - cbn [foldl].
    destruct (checkChannel lndClient (invalidChannels, log) entry)
      as [invalid' log'] eqn:Hstep.
    rewrite IH. apply (f_equal snd) in Hstep.
    rewrite checkChannel_snd in Hstep. simpl in Hstep. subst log'.
    by rewrite bind_cons, <- app_assoc.
Qed.

Lemma detectInvalid_snd log entries :
  (detectInvalid lndClient log entries).2 =
  log ++ (entries ≫= channelEffects lndClient).
Proof. apply foldl_checkChannel_snd. Qed.

Lemma channelEffects_call cid subjectiveSize :
  CallGetChanInfo (ToUint64 cid) ∈
    channelEffects lndClient (cid, subjectiveSize).
Proof.
  unfold channelEffects, checkChannel.
  destruct (GetChanInfo lndClient (ToUint64 cid)) as [graphChan|err];
    [destruct (decide (EdgeCapacity graphChan ≠ subjectiveSize))|];
    simpl; apply elem_of_cons; by left.
Qed.

Lemma channelEffects_failed cid subjectiveSize err :
  GetChanInfo lndClient (ToUint64 cid) = Err err →
  channelEffects lndClient (cid, subjectiveSize) =
  [CallGetChanInfo (ToUint64 cid);
   Printf "unable to obtain graph channel for cid(%v): %v"
          [VCid cid; VErr err]].
Proof. intros Herr. unfold channelEffects, checkChannel. by rewrite Herr. Qed.

Lemma channelEffects_mismatch cid subjectiveSize graphChan :
  GetChanInfo lndClient (ToUint64 cid) = Ok graphChan →
  EdgeCapacity graphChan ≠ subjectiveSize →
  channelEffects lndClient (cid, subjectiveSize) =
  [CallGetChanInfo (ToUint64 cid);
   Printf "**** FAKE CHANNEL FOUND ****" [];
   Printf "CID: %v" [];
   Printf "Actual channel value: %v" [VInt64 (EdgeCapacity graphChan)];
   Printf "Subjective channel value: %v" [VAmount subjectiveSize];
   Printf "****************************" []].
Proof.
  intros Hok Hne. unfold channelEffects, checkChannel.
  by rewrite Hok, decide_True.
Qed.

(** Whatever the channel, the lines logged for a capacity mismatch carry
    the two capacities and not the channel id. *)
Lemma channelEffects_mismatch_args cid subjectiveSize graphChan :
  GetChanInfo lndClient (ToUint64 cid) = Ok graphChan →
  EdgeCapacity graphChan ≠ subjectiveSize →
  let args := channelEffects lndClient (cid, subjectiveSize) ≫= effectArgs in
  VInt64 (EdgeCapacity graphChan) ∈ args ∧
  VAmount subjectiveSize ∈ args ∧
  VCid cid ∉ args.
Proof.
  intros Hok Hne. rewrite (channelEffects_mismatch _ _ _ Hok Hne). simpl.
  split; [by constructor 1|]. split; [constructor 2; by constructor 1|].
  intros Hcid. not_listed Hcid.
Qed.

Lemma channelEffects_detector entry :
  Forall (λ e, isDetectorEffect e = true) (channelEffects lndClient entry).
Proof.
  unfold channelEffects, checkChannel. destruct entry as [cid subjectiveSize].
  destruct (GetChanInfo lndClient (ToUint64 cid)) as [graphChan|err];
    [destruct (decide (EdgeCapacity graphChan ≠ subjectiveSize))|];
    simpl; repeat constructor.
Qed.

Lemma detector_effects entries :
  Forall (λ e, isDetectorEffect e = true)
         (entries ≫= channelEffects lndClient).
Proof.
  apply Forall_forall. intros e He.
  apply list_elem_of_bind in He as (entry & He & _).
  pose proof (channelEffects_detector entry) as Hall.
  by eapply Forall_forall in Hall.
Qed.

End Detector.

Lemma invalidChannelsOf_elem_of order lndClient view cid :
  cid ∈ invalidChannelsOf order lndClient view ↔
  ∃ subjectiveSize,
    view !! cid = Some subjectiveSize ∧ disagrees lndClient cid subjectiveSize.
Proof.
  unfold invalidChannelsOf, detectInvalid.
  rewrite foldl_checkChannel_elem_of. setoid_rewrite range_elem_of.
  split; [intros [Hin|?]; [|done]|by right].
  by apply not_elem_of_empty in Hin.
Qed.

Lemma invalidChannelsOf_order order order' lndClient view :
  invalidChannelsOf order lndClient view =
  invalidChannelsOf order' lndClient view.
Proof. apply set_eq. intros cid. by rewrite !invalidChannelsOf_elem_of. Qed.

(** ** The sum over the ledger *)

Lemma reportLoss_fst_range totalLoss log entries :
  is_int64 totalLoss →
  is_int64 (foldl reportLoss (totalLoss, log) entries).1.
Proof.
  revert totalLoss log.
  induction entries as [|[chanID amtLost] entries IH]; intros totalLoss log Ht.
  - done.
  - cbn [foldl]. unfold reportLoss at 2. apply IH, int64_range.
Qed.

Lemma reportLoss_fst_sum totalLoss log entries :
  int64 (foldl reportLoss (totalLoss, log) entries).1 =
  int64 (totalLoss + sumAmounts entries).
Proof.
  revert totalLoss log.
  induction entries as [|[chanID amtLost] entries IH]; intros totalLoss log.
  - simpl. f_equal. lia.
  - cbn [foldl]. unfold reportLoss at 2. rewrite IH, int64_add_l.
    simpl. f_equal. lia.
Qed.

Lemma sumLosses_fst log entries :
  (sumLosses log entries).1 = int64 (sumAmounts entries).
Proof.
  unfold sumLosses.
  rewrite <- (int64_small (foldl reportLoss (0, log) entries).1).
  - by rewrite reportLoss_fst_sum.
  - apply reportLoss_fst_range. unfold is_int64. lia.
Qed.

Lemma sumAmounts_perm entries entries' :
  entries ≡ₚ entries' → sumAmounts entries = sumAmounts entries'.
Proof.
  induction 1 as [|e l l' _ IH|e1 e2 l|l1 l2 l3 _ IH1 _ IH2]; simpl; lia.
Qed.

Lemma sumLosses_fst_perm log log' entries entries' :
  entries ≡ₚ entries' →
  (sumLosses log entries).1 = (sumLosses log' entries').1.
Proof. intros Hp. by rewrite !sumLosses_fst, (sumAmounts_perm _ _ Hp). Qed.

Lemma sumLosses_snd log entries :
  (sumLosses log entries).2 = log ++ lossLines entries.
Proof.
  unfold sumLosses. generalize 0. revert log.
  induction entries as [|[chanID amtLost] entries IH]; intros log totalLoss.
  - simpl. by rewrite app_nil_r.
  - cbn [foldl]. unfold reportLoss at 2. rewrite IH.
    by rewrite <- app_assoc.
Qed.

(** ** The loop over the forwarding events *)

Lemma addAmount_lookup m cid delta cid' :
  addAmount m cid delta !! cid' =
  if decide (cid = cid') then Some (int64 (default 0 (m !! cid) + delta))
  else m !! cid'.
Proof. unfold addAmount. by rewrite lookup_insert. Qed.

Lemma addAmount_comm m cid1 delta1 cid2 delta2 :
  addAmount (addAmount m cid1 delta1) cid2 delta2 =
  addAmount (addAmount m cid2 delta2) cid1 delta1.
Proof.
  apply map_eq. intros cid. rewrite !addAmount_lookup.
  repeat case_decide; simplify_eq; simpl; try done.
  f_equal. rewrite !int64_add_l. f_equal. lia.
Qed.

Lemma foldl_comm_perm {A B : Type} (f : A → B → A) (l l' : list B) :
  (∀ a x y, f (f a x) y = f (f a y) x) →
  l ≡ₚ l' → ∀ a, foldl f a l = foldl f a l'.
Proof.
  intros Hcomm.
  induction 1 as [|x l l' _ IH|x y l|l1 l2 l3 _ IH1 _ IH2]; intros a; simpl.
  - done.
  - apply IH.
  - by rewrite Hcomm.
  - by rewrite IH1.
Qed.

Lemma ledgerSum_empty : ledgerSum ∅ = 0.
Proof. unfold ledgerSum. by rewrite map_to_list_empty. Qed.

Lemma ledgerSum_insert_fresh (m : gmap ShortChannelID Z) cid amount :
  m !! cid = None → ledgerSum (<[cid := amount]> m) = amount + ledgerSum m.
Proof.
  intros Hfresh. unfold ledgerSum.
  by rewrite (sumAmounts_perm _ _ (map_to_list_insert m cid amount Hfresh)).
Qed.

Lemma ledgerSum_insert (m : gmap ShortChannelID Z) cid amount :
  ledgerSum (<[cid := amount]> m) =
  amount + ledgerSum m - default 0 (m !! cid).
Proof.
  destruct (m !! cid) as [old|] eqn:Hcid; simpl.
  - rewrite <- (insert_delete_eq m cid amount).
    rewrite <- (insert_delete_id m cid old Hcid) at 2.
    rewrite !ledgerSum_insert_fresh by apply lookup_delete_eq. lia.
  - rewrite ledgerSum_insert_fresh by done. lia.
Qed.

Lemma ledgerSum_addAmount m cid delta :
  int64 (ledgerSum (addAmount m cid delta)) = int64 (ledgerSum m + delta).
Proof.
  unfold addAmount. rewrite ledgerSum_insert.
  replace (int64 (default 0 (m !! cid) + delta) + ledgerSum m
           - default 0 (m !! cid))
    with (int64 (default 0 (m !! cid) + delta)
          + (ledgerSum m - default 0 (m !! cid))) by lia.
  rewrite int64_add_l. f_equal. lia.
Qed.

Lemma eventNet_balanced fwdEvent :
  Fee fwdEvent = AmtIn fwdEvent - AmtOut fwdEvent →
  int64 (eventNet fwdEvent) = 0.
Proof.
  intros Hfee. unfold eventNet. rewrite Hfee.
  replace (AmtIn fwdEvent - (AmtIn fwdEvent - AmtOut fwdEvent))
    with (AmtOut fwdEvent) by lia.
  autorewrite with int64.
  replace (- AmtOut fwdEvent + AmtOut fwdEvent) with 0 by lia.
  reflexivity.
Qed.

Section Quantifier.
Context (invalidChannels : gset ShortChannelID).

Lemma recordForward_comm m fwdEvent1 fwdEvent2 :
  recordForward invalidChannels
    (recordForward invalidChannels m fwdEvent1) fwdEvent2 =
  recordForward invalidChannels
    (recordForward invalidChannels m fwdEvent2) fwdEvent1.
Proof.
  unfold recordForward.
  set (in1 := NewShortChanIDFromInt (ChanIdIn fwdEvent1)).
  set (out1 := NewShortChanIDFromInt (ChanIdOut fwdEvent1)).
  set (in2 := NewShortChanIDFromInt (ChanIdIn fwdEvent2)).
  set (out2 := NewShortChanIDFromInt (ChanIdOut fwdEvent2)).
  destruct (negb _); destruct (negb _); try done.
  rewrite (addAmount_comm (addAmount m in1 _) out1 _ in2 _).
  rewrite (addAmount_comm (addAmount (addAmount m in1 _) in2 _) out1 _ out2 _).
  rewrite (addAmount_comm m in1 _ in2 _).
  by rewrite (addAmount_comm (addAmount m in2 _) in1 _ out2 _).
Qed.

Lemma quantify_perm events events' :
  events ≡ₚ events' →
  quantify invalidChannels events = quantify invalidChannels events'.
Proof.
  intros Hp. unfold quantify.
  apply foldl_comm_perm; [|done]. apply recordForward_comm.
Qed.

Lemma ledgerSum_recordForward m fwdEvent :
  int64 (ledgerSum (recordForward invalidChannels m fwdEvent)) =
  int64 (ledgerSum m) ∨
  int64 (ledgerSum (recordForward invalidChannels m fwdEvent)) =
  int64 (ledgerSum m + eventNet fwdEvent).
Proof.
  unfold recordForward. destruct (negb _); [by left|right].
  rewrite ledgerSum_addAmount, <- int64_add_l, ledgerSum_addAmount.
  rewrite int64_add_l. unfold eventNet. f_equal. lia.
Qed.

Lemma ledgerSum_quantify_balanced events m :
  Forall (λ e, Fee e = AmtIn e - AmtOut e) events →
  int64 (ledgerSum (foldl (recordForward invalidChannels) m events)) =
  int64 (ledgerSum m).
Proof.
  intros Hall. revert m.
  induction Hall as [|fwdEvent events Hfee _ IH]; intros m; [done|].
  cbn [foldl]. rewrite IH.
  destruct (ledgerSum_recordForward m fwdEvent)
    as [->| ->]; [done|].
  rewrite <- int64_add_r, (eventNet_balanced _ Hfee). f_equal. lia.
Qed.

End Quantifier.

(** ** [main], by the way it ends *)

Lemma main_detector order lndClient channels :
  ListChannels lndClient = Ok channels →
  main order (Ok lndClient) =
  let invalidChannels :=
    invalidChannelsOf order lndClient (buildSubjectiveChanView channels) in
  let log := detectorLog order lndClient channels in
  if decide (size invalidChannels = 0%nat) then
    (log ++ [Printf "Your node was not affected by CVE-2019-12999!" []],
     NotAffected)
  else
    let log :=
      log ++ [Printf "Quantifying amount lost due to forwards over invalid channels..." [];
              CallForwardingHistory] in
    match ForwardingHistory lndClient with
    | Err err =>
        (log ++ [Fatalf "unable to obtain forwarding history: %v" [VErr err]],
         Exited)
    | Ok forwardingEvents =>
        let chanForwardHistory := quantify invalidChannels forwardingEvents in
        let totalLoss := int64 (ledgerSum chanForwardHistory) in
        (log ++ lossLines (range order chanForwardHistory)
             ++ [Printf "Amount lost: %v" [VAmount totalLoss]],
         Quantified chanForwardHistory totalLoss)
    end.
Proof.
  intros Hlist. unfold main. rewrite Hlist. cbv zeta.
  rewrite detectInvalid_fst, detectInvalid_snd.
  fold (invalidChannelsOf order lndClient (buildSubjectiveChanView channels)).
  unfold detectorLog.
  destruct (decide (size _ = 0%nat)) as [Hsize|Hsize].
  - f_equal; by rewrite <- ?app_assoc.
  - destruct (ForwardingHistory lndClient) as [forwardingEvents|err].
    + rewrite sumLosses_fst, sumLosses_snd.
      rewrite (sumAmounts_perm _ _ (range_perm order _)).
      unfold ledgerSum. f_equal; by rewrite <- ?app_assoc.
    + f_equal; by rewrite <- ?app_assoc.
Qed.

Lemma main_outcome_order order order' NewBasicClient :
  (main order NewBasicClient).2 = (main order' NewBasicClient).2.
Proof.
  destruct NewBasicClient as [lndClient|err]; [|done].
  destruct (ListChannels lndClient) as [channels|err] eqn:Hlist.
  - rewrite !(main_detector _ _ _ Hlist). cbv zeta.
    rewrite (invalidChannelsOf_order order order').
    destruct (decide (size _ = 0%nat)); [done|].
    by destruct (ForwardingHistory lndClient).
  - unfold main. by rewrite Hlist.
Qed.

Lemma main_trace_detectorLog order lndClient channels :
  ListChannels lndClient = Ok channels →
  ∃ rest,
    (main order (Ok lndClient)).1 =
    detectorLog order lndClient channels ++ rest.
Proof.
  intros Hlist. rewrite (main_detector _ _ _ Hlist). cbv zeta.
  generalize (detectorLog order lndClient channels). intros log.
  destruct (decide (size _ = 0%nat)); [eexists; reflexivity|].
  destruct (ForwardingHistory lndClient); cbn [fst];
    rewrite <- ?app_assoc; eexists; reflexivity.
Qed.

Lemma main_trace_channelEffects order lndClient channels cid subjectiveSize e :
  ListChannels lndClient = Ok channels →
  buildSubjectiveChanView channels !! cid = Some subjectiveSize →
  e ∈ channelEffects lndClient (cid, subjectiveSize) →
  e ∈ (main order (Ok lndClient)).1.
Proof.
  intros Hlist Hcid He.
  destruct (main_trace_detectorLog order _ _ Hlist) as [rest ->].
  unfold detectorLog. rewrite !elem_of_app. left. right. left.
  apply list_elem_of_bind. exists (cid, subjectiveSize).
  split; [done|]. by apply range_elem_of.
Qed.

Lemma detectorLog_elem_of order lndClient channels e :
  e ∈ detectorLog order lndClient channels →
  e = CallListChannels ∨
  (∃ format args,
      e = Printf format args ∧
      format ∈ ["Obtaining candidate set of invalidate channels...";
                "Filtering out valid channels...";
                "Num invalid channels found: %v"]) ∨
  isDetectorEffect e = true.
Proof.
  unfold detectorLog. rewrite !elem_of_app.
  intros [He|[He|He]].
  - repeat (apply elem_of_cons in He as [->|He]); [by left| | |].
    + right; left. do 2 eexists. split; [done|]. by constructor 1.
    + right; left. do 2 eexists. split; [done|]. constructor 2. by constructor 1.
    + by apply elem_of_nil in He.
  - right; right.
    pose proof (detector_effects lndClient
                  (range order (buildSubjectiveChanView channels))) as Hall.
    by eapply Forall_forall in Hall.
  - apply list_elem_of_singleton in He as ->.
    right; left. do 2 eexists. split; [done|]. do 2 constructor 2.
    by constructor 1.
Qed.

(** A run with a client exits fatally exactly when the channel listing
    fails, or some channel is invalid and the forwarding history fails. *)
Lemma main_exits_iff order lndClient :
  (main order (Ok lndClient)).2 = Exited ↔
  is_Err (ListChannels lndClient) ∨
  ∃ channels,
    ListChannels lndClient = Ok channels ∧
    invalidChannelsOf order lndClient (buildSubjectiveChanView channels) ≠ ∅ ∧
    is_Err (ForwardingHistory lndClient).
Proof.
  destruct (ListChannels lndClient) as [channels|err] eqn:Hlist.
  - rewrite (main_detector _ _ _ Hlist). cbv zeta.
    destruct (decide (size _ = 0%nat)) as [Hsize|Hsize].
    + apply size_empty_inv, leibniz_equiv in Hsize.
      split; [done|]. intros [[]|(channels' & [= <-] & Hne & _)]. done.
    + assert (invalidChannelsOf order lndClient
                (buildSubjectiveChanView channels) ≠ ∅) as Hne.
      { intros Hempty. apply Hsize. by rewrite Hempty, size_empty. }
      destruct (ForwardingHistory lndClient) as [events|err]; simpl.
      * split; [done|]. by intros [[]|(_ & _ & _ & [])].
      * split; [|done]. intros _. right. by exists channels.
  - unfold main. rewrite Hlist. simpl. split; [by left|done].
Qed.

(** * The claims *)

(** C9: for every 64-bit channel id, decoding the raw integer into the
    (block height, transaction index, output index) triple and encoding the
    triple again gives the integer back. *)
Theorem chanid_roundtrip chanID :
  is_uint64 chanID → ToUint64 (NewShortChanIDFromInt chanID) = chanID.
Proof. apply ToUint64_NewShortChanIDFromInt. Qed.

Lemma chanid_roundtrip_witness :
  ToUint64 (NewShortChanIDFromInt 0xFEDCBA9876543210) = 0xFEDCBA9876543210.
Proof. apply chanid_roundtrip. unfold is_uint64. lia. Defined.

(** C10: when a channel id is listed more than once, the subjective view
    holds exactly one entry for it, with the capacity of its last listing:
    for a listing [l1 ++ channel :: l2] in which no channel of [l2] has the
    id of [channel], the view maps the id to the capacity of [channel], and
    a range over the view meets the id once, with that capacity. *)
Theorem subjective_view_last_write_wins order l1 channel l2 :
  Forall (λ c, is_uint64 (ChanId c)) (l1 ++ channel :: l2) →
  Forall (λ c, ChanId c ≠ ChanId channel) l2 →
  let cid := NewShortChanIDFromInt (ChanId channel) in
  let subjectiveChanView := buildSubjectiveChanView (l1 ++ channel :: l2) in
  subjectiveChanView !! cid = Some (Capacity channel) ∧
  filter (λ entry, entry.1 = cid) (range order subjectiveChanView) =
    [(cid, Capacity channel)].
Proof.
  intros Hwf Hlast cid view.
  assert (Hcid : view !! cid = Some (Capacity channel)).
  { unfold view. rewrite buildSubjectiveChanView_lookup.
    apply lastListed_app_cons; [done|].
    apply Forall_app in Hwf as [_ Hwf].
    apply Forall_cons in Hwf as [Hc Hwf].
    apply Forall_forall. intros c Hin Heq.
    eapply Forall_forall in Hlast; [|exact Hin].
    eapply Forall_forall in Hwf; [|exact Hin].
    apply Hlast. by apply NewShortChanIDFromInt_inj. }
  split; [done|].
  apply filter_key_NoDup; [apply range_NoDup_fst|by apply range_elem_of].
Qed.

Lemma subjective_view_last_write_wins_witness :
  let listing :=
    [mkChannel chanA 500000] ++ mkChannel chanA 700000 :: [mkChannel chanB 1]
  in
  buildSubjectiveChanView listing !! NewShortChanIDFromInt chanA =
    Some 700000 ∧
  filter (λ entry, entry.1 = NewShortChanIDFromInt chanA)
         (range canonicalOrder (buildSubjectiveChanView listing)) =
    [(NewShortChanIDFromInt chanA, 700000)].
Proof.
  apply (subjective_view_last_write_wins canonicalOrder
           [mkChannel chanA 500000] (mkChannel chanA 700000)
           [mkChannel chanB 1]).
  - repeat constructor; vm_compute; congruence.
  - repeat constructor; vm_compute; congruence.
Defined.

(** C4: a channel is in the set of invalid channels exactly when it is in
    the subjective view and the query of the channel graph for it fails, or
    answers with a capacity other than the subjective one.  The
    classification of a channel depends on its own entry and its own query
    only: another view and another graph that agree on this channel
    classify it the same way. *)
Theorem invalid_iff_absent_or_mismatch order lndClient
    (subjectiveChanView : gmap ShortChannelID Z) cid :
  (cid ∈ invalidChannelsOf order lndClient subjectiveChanView ↔
   ∃ subjectiveSize,
     subjectiveChanView !! cid = Some subjectiveSize ∧
     (is_Err (GetChanInfo lndClient (ToUint64 cid)) ∨
      ∃ graphChan,
        GetChanInfo lndClient (ToUint64 cid) = Ok graphChan ∧
        EdgeCapacity graphChan ≠ subjectiveSize)) ∧
  (∀ order' lndClient' (subjectiveChanView' : gmap ShortChannelID Z),
     subjectiveChanView' !! cid = subjectiveChanView !! cid →
     GetChanInfo lndClient' (ToUint64 cid) =
       GetChanInfo lndClient (ToUint64 cid) →
     (cid ∈ invalidChannelsOf order' lndClient' subjectiveChanView' ↔
      cid ∈ invalidChannelsOf order lndClient subjectiveChanView)).
Proof.
  split.
  - rewrite invalidChannelsOf_elem_of. unfold disagrees.
    split; intros (subjectiveSize & Hview & Hd); exists subjectiveSize;
      (split; [done|]);
      destruct (GetChanInfo lndClient (ToUint64 cid)) as [graphChan|err].
    + right. by exists graphChan.
    + by left.
    + destruct Hd as [[]|(g & [= <-] & Hne)]. done.
    + done.
  - intros order' lndClient' view' Hview Hquery.
    rewrite !invalidChannelsOf_elem_of. unfold disagrees.
    by rewrite Hview, Hquery.
Qed.

(** C8: when the channel graph query of a channel of the subjective view
    fails, the run goes on: the channel is classified invalid, the failure
    is logged with the channel id and the error, every channel of the view
    is still queried and classified by its own answer, and the run exits
    fatally only if the forwarding history call fails (the channel listing
    having succeeded). *)
Theorem failed_query_does_not_abort order lndClient channels cid
    subjectiveSize err :
  ListChannels lndClient = Ok channels →
  buildSubjectiveChanView channels !! cid = Some subjectiveSize →
  GetChanInfo lndClient (ToUint64 cid) = Err err →
  let run := main order (Ok lndClient) in
  let invalidChannels :=
    invalidChannelsOf order lndClient (buildSubjectiveChanView channels) in
  cid ∈ invalidChannels ∧
  Printf "unable to obtain graph channel for cid(%v): %v"
         [VCid cid; VErr err] ∈ run.1 ∧
  (∀ cid' subjectiveSize',
     buildSubjectiveChanView channels !! cid' = Some subjectiveSize' →
     CallGetChanInfo (ToUint64 cid') ∈ run.1 ∧
     (cid' ∈ invalidChannels ↔ disagrees lndClient cid' subjectiveSize')) ∧
  (run.2 = Exited ↔ is_Err (ForwardingHistory lndClient)).
Proof.
  intros Hlist Hcid Herr run invalidChannels.
  assert (Hin : cid ∈ invalidChannels).
  { apply invalidChannelsOf_elem_of. exists subjectiveSize.
    split; [done|]. unfold disagrees. by rewrite Herr. }
  split; [done|]. split; [|split].
  - eapply main_trace_channelEffects; [done..|].
    rewrite (channelEffects_failed _ _ _ _ Herr). set_solver.
  - intros cid' size' Hcid'. split.
    + eapply main_trace_channelEffects; [done..|].
      apply channelEffects_call.
    + unfold invalidChannels. rewrite invalidChannelsOf_elem_of.
      split; [|by exists size'].
      intros (s & Hs & Hd). by simplify_eq.
  - unfold run. rewrite main_exits_iff, Hlist. split.
    + by intros [[]|(_ & _ & _ & Hfail)].
    + intros Hfail. right. exists channels. split; [done|].
      split; [|done]. intros Hempty.
      fold invalidChannels in Hempty. rewrite Hempty in Hin.
      by apply not_elem_of_empty in Hin.
Qed.

Lemma failed_query_does_not_abort_witness :
  let run := main canonicalOrder (Ok nodeNotFound) in
  let invalidChannels :=
    invalidChannelsOf canonicalOrder nodeNotFound
      (buildSubjectiveChanView [mkChannel chanA 500000]) in
  cidA ∈ invalidChannels ∧
  Printf "unable to obtain graph channel for cid(%v): %v"
         [VCid cidA; VErr "edge not found"] ∈ run.1 ∧
  (∀ cid' subjectiveSize',
     buildSubjectiveChanView [mkChannel chanA 500000] !! cid' =
       Some subjectiveSize' →
     CallGetChanInfo (ToUint64 cid') ∈ run.1 ∧
     (cid' ∈ invalidChannels ↔ disagrees nodeNotFound cid' subjectiveSize')) ∧
  (run.2 = Exited ↔ is_Err (ForwardingHistory nodeNotFound)).
Proof.
  apply (failed_query_does_not_abort canonicalOrder nodeNotFound
           [mkChannel chanA 500000] cidA 500000 "edge not found");
    reflexivity.
Defined.

(** C5: when the listing succeeded and no channel was found invalid, the
    run ends with the "not affected" line as its last line, the forwarding
    history is never requested, and no loss line ("FakeChannel...",
    "Amount lost...") is printed. *)
Theorem no_invalid_channel_not_affected order lndClient channels :
  ListChannels lndClient = Ok channels →
  invalidChannelsOf order lndClient (buildSubjectiveChanView channels) = ∅ →
  ∃ log,
    main order (Ok lndClient) =
      (log ++ [Printf "Your node was not affected by CVE-2019-12999!" []],
       NotAffected) ∧
    (CallForwardingHistory ∉ log) ∧
    (∀ format args,
       Printf format args ∈ log →
       format ≠ "FakeChannel(%v) resulted in loss of: %v" ∧
       format ≠ "Amount lost: %v").
Proof.
  intros Hlist Hempty. exists (detectorLog order lndClient channels).
  split; [|split].
  - rewrite (main_detector _ _ _ Hlist). cbv zeta.
    rewrite Hempty, size_empty. by rewrite decide_True.
  - intros [Heq|[(format & args & Heq & _)|Hdet]]%detectorLog_elem_of;
      discriminate.
  - intros format args
      [Heq|[(format' & args' & Heq & Hfmt)|Hdet]]%detectorLog_elem_of.
    + discriminate.
    + injection Heq as <- <-.
      split; intros ->; not_listed Hfmt.
    + simpl in Hdet. apply bool_decide_eq_true in Hdet.
      split; intros ->; not_listed Hdet.
Qed.

Lemma no_invalid_channel_not_affected_witness :
  ∃ log,
    main canonicalOrder (Ok nodeMatch) =
      (log ++ [Printf "Your node was not affected by CVE-2019-12999!" []],
       NotAffected) ∧
    (CallForwardingHistory ∉ log) ∧
    (∀ format args,
       Printf format args ∈ log →
       format ≠ "FakeChannel(%v) resulted in loss of: %v" ∧
       format ≠ "Amount lost: %v").
Proof.
  apply (no_invalid_channel_not_affected canonicalOrder nodeMatch
           [mkChannel chanA 500000]).
  - reflexivity.
  - vm_compute. reflexivity.
Defined.

(** C7: the ledger built from a permutation of the forwarding events is the
    same ledger, and the total over it is the same total, in whatever order
    the ledger's entries are visited. *)
Theorem ledger_fold_order_independent order order' log log' invalidChannels
    events events' :
  events ≡ₚ events' →
  quantify invalidChannels events = quantify invalidChannels events' ∧
  (sumLosses log (range order (quantify invalidChannels events))).1 =
  (sumLosses log' (range order' (quantify invalidChannels events'))).1.
Proof.
  intros Hp. split; [by apply quantify_perm|].
  apply sumLosses_fst_perm.
  rewrite (quantify_perm _ _ _ Hp).
  by rewrite (range_perm order), (range_perm order').
Qed.

Lemma ledger_fold_order_independent_witness :
  quantify {[cidA]} [forwardAB; forwardBA] =
    quantify {[cidA]} [forwardBA; forwardAB] ∧
  (sumLosses [] (range canonicalOrder
                   (quantify {[cidA]} [forwardAB; forwardBA]))).1 =
  (sumLosses [] (range canonicalOrder
                   (quantify {[cidA]} [forwardBA; forwardAB]))).1.
Proof.
  apply (ledger_fold_order_independent canonicalOrder canonicalOrder [] []
           {[cidA]} [forwardAB; forwardBA] [forwardBA; forwardAB]).
  apply perm_swap.
Defined.

(** C1: the end-to-end scenario on the code.  The subjective view is
    {A: 500000} and the channel graph does not know A, so the invalid
    channels are {A}.  The one forward in over A (amount-in 100000, fee
    100) and out over B (amount-out 99900) gives the ledger
    {A: -99900, B: +99900} and a total loss of 0, in every iteration
    order: the outbound channel B, which is not invalid, gets an entry. *)
Theorem end_to_end_not_found order :
  invalidChannelsOf order nodeNotFound
    (buildSubjectiveChanView [mkChannel chanA 500000]) = {[cidA]} ∧
  (main order (Ok nodeNotFound)).2 =
    Quantified (<[cidA := -99900]> {[cidB := 99900]}) 0.
Proof.
  split.
  - rewrite (invalidChannelsOf_order order canonicalOrder).
    vm_compute. reflexivity.
  - rewrite (main_outcome_order order canonicalOrder).
    vm_compute. reflexivity.
Qed.

(** C2: a key of the ledger that is not an invalid channel.  With A the
    only invalid channel, the forward in over A and out over B leaves an
    entry of +99900 for B. *)
Theorem ledger_key_not_invalid :
  quantify {[cidA]} [forwardAB] !! cidB = Some 99900 ∧
  cidB ∈ dom (quantify {[cidA]} [forwardAB]) ∧
  cidB ∉ ({[cidA]} : gset ShortChannelID).
Proof.
  assert (Hlookup : quantify {[cidA]} [forwardAB] !! cidB = Some 99900)
    by (vm_compute; reflexivity).
  split; [done|]. split.
  - apply elem_of_dom. by eexists.
  - intros Hin%elem_of_singleton. discriminate Hin.
Qed.

(** C6: the diagnostic of a capacity mismatch on the code.  The graph
    knows channel A with capacity 400000, the node believes 500000: the
    run logs both capacities, and the "CID" line is printed with no
    argument, so that no line of the run carries the channel id. *)
Theorem mismatch_diagnostic_omits_cid :
  (main canonicalOrder (Ok nodeMismatch)).1 =
    [CallListChannels;
     Printf "Obtaining candidate set of invalidate channels..." [];
     Printf "Filtering out valid channels..." [];
     CallGetChanInfo chanA;
     Printf "**** FAKE CHANNEL FOUND ****" [];
     Printf "CID: %v" [];
     Printf "Actual channel value: %v" [VInt64 400000];
     Printf "Subjective channel value: %v" [VAmount 500000];
     Printf "****************************" [];
     Printf "Num invalid channels found: %v" [VLen 1];
     Printf "Quantifying amount lost due to forwards over invalid channels..." [];
     CallForwardingHistory;
     Printf "Amount lost: %v" [VAmount 0]] ∧
  cidA ∈ invalidChannelsOf canonicalOrder nodeMismatch
           (buildSubjectiveChanView [mkChannel chanA 500000]) ∧
  (∀ e, e ∈ (main canonicalOrder (Ok nodeMismatch)).1 →
        VCid cidA ∉ effectArgs e).
Proof.
  assert (Htrace : (main canonicalOrder (Ok nodeMismatch)).1 =
    [CallListChannels;
     Printf "Obtaining candidate set of invalidate channels..." [];
     Printf "Filtering out valid channels..." [];
     CallGetChanInfo chanA;
     Printf "**** FAKE CHANNEL FOUND ****" [];
     Printf "CID: %v" [];
     Printf "Actual channel value: %v" [VInt64 400000];
     Printf "Subjective channel value: %v" [VAmount 500000];
     Printf "****************************" [];
     Printf "Num invalid channels found: %v" [VLen 1];
     Printf "Quantifying amount lost due to forwards over invalid channels..." [];
     CallForwardingHistory;
     Printf "Amount lost: %v" [VAmount 0]])
    by (vm_compute; reflexivity).
  split; [done|]. split.
  - apply invalidChannelsOf_elem_of. exists 500000.
    split; [vm_compute; reflexivity|].
    unfold disagrees. simpl. lia.
  - intros e He Hcid. rewrite Htrace in He.
    repeat (apply elem_of_cons in He as [->|He]);
      try (by apply elem_of_nil in He); simpl in Hcid; not_listed Hcid.
Qed.

(** * Further properties of [main] *)

(** ** Equations between wrapped sums *)

Lemma int64_decomp x : ∃ k, int64 x = x + 2 ^ 64 * k.
Proof.
  exists (- ((x + 2 ^ 63) / 2 ^ 64)). unfold int64.
  pose proof (Z.div_mod (x + 2 ^ 63) (2 ^ 64)). lia.
Qed.

Lemma uint64_decomp x : ∃ k, uint64 x = x + 2 ^ 64 * k.
Proof.
  exists (- (x / 2 ^ 64)). unfold uint64.
  pose proof (Z.div_mod x (2 ^ 64)). lia.
Qed.

Lemma int64_congr_mod a b : (a - b) mod 2 ^ 64 = 0 → int64 a = int64 b.
Proof.
  intros Hmod. unfold int64. f_equal.
  replace (a + 2 ^ 63) with (b + 2 ^ 63 + (a - b) / 2 ^ 64 * 2 ^ 64).
  - apply Z.mod_add. lia.
  - pose proof (Z.div_mod (a - b) (2 ^ 64)). lia.
Qed.

(** Every wrapped subterm is its argument plus a multiple of 2^64. *)
Ltac int64_abstract :=
  repeat match goal with
         | |- context [int64 ?x] =>
             let k := fresh "k" in
             let H := fresh "H" in
             destruct (int64_decomp x) as [k H]; rewrite H; clear H
         | |- context [uint64 ?x] =>
             let k := fresh "k" in
             let H := fresh "H" in
             destruct (uint64_decomp x) as [k H]; rewrite H; clear H
         end.

(** Proves [int64 a = int64 b] when [a] and [b] agree modulo 2^64. *)
Ltac int64_solve :=
  apply int64_congr_mod; int64_abstract;
  change (2 ^ 64) with 18446744073709551616;
  Z.div_mod_to_equations; lia.

(** ** The loop over the forwarding events, event by event *)

Section Ledger.
Context (invalidChannels : gset ShortChannelID).

Lemma recordForward_skip m fwdEvent :
  ¬ touchesInvalid invalidChannels fwdEvent →
  recordForward invalidChannels m fwdEvent = m.
Proof.
  intros Hskip. unfold recordForward, touchesInvalid in *.
  rewrite !bool_decide_eq_false_2; [done|tauto..].
Qed.

Lemma recordForward_touches m fwdEvent :
  touchesInvalid invalidChannels fwdEvent →
  recordForward invalidChannels m fwdEvent =
  addAmount
    (addAmount m (NewShortChanIDFromInt (ChanIdIn fwdEvent))
       (int64 (- int64 (uint64 (AmtIn fwdEvent - Fee fwdEvent)))))
    (NewShortChanIDFromInt (ChanIdOut fwdEvent)) (int64 (AmtOut fwdEvent)).
Proof.
  intros Htouch. unfold recordForward, touchesInvalid in *.
  destruct Htouch as [Hin|Hout].
  - by rewrite (bool_decide_eq_true_2 _ Hin).
  - rewrite (bool_decide_eq_true_2 _ Hout). by rewrite orb_true_r.
Qed.

Lemma foldl_recordForward_filter events m :
  foldl (recordForward invalidChannels) m events =
  foldl (recordForward invalidChannels) m
        (filter (touchesInvalid invalidChannels) events).
Proof.
  revert m. induction events as [|fwdEvent events IH]; intros m; [done|].
  rewrite filter_cons. cbn [foldl].
  destruct (decide (touchesInvalid invalidChannels fwdEvent)) as [Ht|Ht].
  - cbn [foldl]. apply IH.
  - rewrite (recordForward_skip _ _ Ht). apply IH.
Qed.

Lemma addAmount_dom m cid delta :
  dom (addAmount m cid delta) = {[cid]} ∪ dom m.
Proof. unfold addAmount. apply dom_insert_L. Qed.

Lemma foldl_recordForward_dom events m cid :
  cid ∈ dom (foldl (recordForward invalidChannels) m events) ↔
  cid ∈ dom m ∨
  ∃ fwdEvent,
    fwdEvent ∈ events ∧ touchesInvalid invalidChannels fwdEvent ∧
    (cid = NewShortChanIDFromInt (ChanIdIn fwdEvent) ∨
     cid = NewShortChanIDFromInt (ChanIdOut fwdEvent)).
Proof.
  revert m. induction events as [|fwdEvent events IH]; intros m.
  - simpl. split; [by left|]. intros [?|(? & Hin & _)]; [done|].
    by apply elem_of_nil in Hin.
  - cbn [foldl]. rewrite IH. setoid_rewrite elem_of_cons.
    destruct (decide (touchesInvalid invalidChannels fwdEvent)) as [Ht|Ht].
    + rewrite (recordForward_touches _ _ Ht), !addAmount_dom.
      rewrite !elem_of_union, !elem_of_singleton. split.
      * intros [[?|[?|?]]|(e & ? & ? & ?)]; eauto 8.
      * intros [?|(e & [->|?] & ? & [?|?])]; eauto 8.
    + rewrite (recordForward_skip _ _ Ht). split.
      * intros [?|(e & ? & ? & ?)]; eauto 8.
      * intros [?|(e & [->|?] & ? & ?)]; eauto 8. done.
Qed.

Lemma addAmount_lookup_int64 m cid delta cid' :
  int64 (default 0 (addAmount m cid delta !! cid')) =
  int64 (default 0 (m !! cid') + (if decide (cid = cid') then delta else 0)).
Proof.
  rewrite addAmount_lookup. destruct (decide (cid = cid')) as [->|Hne]; simpl.
  - apply int64_small, int64_range.
  - f_equal. lia.
Qed.

Lemma recordForward_lookup_int64 m fwdEvent cid :
  touchesInvalid invalidChannels fwdEvent →
  int64 (default 0 (recordForward invalidChannels m fwdEvent !! cid)) =
  int64 (default 0 (m !! cid) + contribution cid fwdEvent).
Proof.
  intros Ht. rewrite (recordForward_touches _ _ Ht).
  rewrite addAmount_lookup_int64, <- int64_add_l, addAmount_lookup_int64.
  unfold contribution.
  destruct (decide (NewShortChanIDFromInt (ChanIdIn fwdEvent) = cid));
    destruct (decide (NewShortChanIDFromInt (ChanIdOut fwdEvent) = cid));
    int64_solve.
Qed.

Lemma foldl_recordForward_lookup_int64 events m cid :
  int64 (default 0 (foldl (recordForward invalidChannels) m events !! cid)) =
  int64 (default 0 (m !! cid)
         + sumProcessed invalidChannels (contribution cid) events).
Proof.
  revert m. unfold sumProcessed.
  induction events as [|fwdEvent events IH]; intros m.
  - simpl. f_equal. lia.
  - cbn [foldl]. rewrite IH, filter_cons.
    destruct (decide (touchesInvalid invalidChannels fwdEvent)) as [Ht|Ht].
    + rewrite <- int64_add_l, (recordForward_lookup_int64 _ _ _ Ht).
      rewrite int64_add_l. simpl. f_equal. lia.
    + by rewrite (recordForward_skip _ _ Ht).
Qed.

Lemma addAmount_range m cid delta :
  map_Forall (λ _ amount, is_int64 amount) m →
  map_Forall (λ _ amount, is_int64 amount) (addAmount m cid delta).
Proof.
  intros Hm cid' amount. rewrite addAmount_lookup.
  destruct (decide (cid = cid')); [|apply Hm].
  intros [= <-]. apply int64_range.
Qed.

Lemma foldl_recordForward_range events m :
  map_Forall (λ _ amount, is_int64 amount) m →
  map_Forall (λ _ amount, is_int64 amount)
             (foldl (recordForward invalidChannels) m events).
Proof.
  revert m. induction events as [|fwdEvent events IH]; intros m Hm; [done|].
  cbn [foldl]. apply IH.
  destruct (decide (touchesInvalid invalidChannels fwdEvent)) as [Ht|Ht].
  - rewrite (recordForward_touches _ _ Ht). by do 2 apply addAmount_range.
  - by rewrite (recordForward_skip _ _ Ht).
Qed.

Lemma foldl_recordForward_ledgerSum events m :
  int64 (ledgerSum (foldl (recordForward invalidChannels) m events)) =
  int64 (ledgerSum m
         + sumProcessed invalidChannels
             (λ e, AmtOut e - (AmtIn e - Fee e)) events).
Proof.
  revert m. unfold sumProcessed.
  induction events as [|fwdEvent events IH]; intros m.
  - simpl. f_equal. lia.
  - cbn [foldl]. rewrite IH, filter_cons.
    destruct (decide (touchesInvalid invalidChannels fwdEvent)) as [Ht|Ht].
    + rewrite <- int64_add_l, (recordForward_touches _ _ Ht).
      rewrite ledgerSum_addAmount.
      rewrite <- (int64_add_l (ledgerSum (addAmount m _ _))).
      rewrite ledgerSum_addAmount.
      simpl. int64_solve.
    + by rewrite (recordForward_skip _ _ Ht).
Qed.

End Ledger.

(** ** The trace, line by line *)

Lemma channelEffects_elem_of lndClient cid subjectiveSize e :
  e ∈ channelEffects lndClient (cid, subjectiveSize) ↔
  e = CallGetChanInfo (ToUint64 cid) ∨
  (∃ err,
      GetChanInfo lndClient (ToUint64 cid) = Err err ∧
      e = Printf "unable to obtain graph channel for cid(%v): %v"
                 [VCid cid; VErr err]) ∨
  (∃ graphChan,
      GetChanInfo lndClient (ToUint64 cid) = Ok graphChan ∧
      EdgeCapacity graphChan ≠ subjectiveSize ∧
      e ∈ [Printf "**** FAKE CHANNEL FOUND ****" [];
           Printf "CID: %v" [];
           Printf "Actual channel value: %v" [VInt64 (EdgeCapacity graphChan)];
           Printf "Subjective channel value: %v" [VAmount subjectiveSize];
           Printf "****************************" []]).
Proof.
  destruct (GetChanInfo lndClient (ToUint64 cid)) as [graphChan|err] eqn:Hq.
  - destruct (decide (EdgeCapacity graphChan ≠ subjectiveSize)) as [Hne|Heq].
    + rewrite (channelEffects_mismatch _ _ _ _ Hq Hne), elem_of_cons.
      split.
      * intros [->|He]; [by left|]. right; right. by exists graphChan.
      * intros [->|[(err & [=] & _)|(g & [= <-] & _ & He)]]; [by left|].
        by right.
    + unfold channelEffects, checkChannel. rewrite Hq, decide_False by done.
      simpl. rewrite list_elem_of_singleton. split; [by left|].
      intros [->|[(err & [=] & _)|(g & [= <-] & Hne & _)]]; done.
  - rewrite (channelEffects_failed _ _ _ _ Hq), elem_of_cons,
      list_elem_of_singleton.
    split.
    + intros [-> | ->]; [by left|]. right; left. by exists err.
    + intros [->|[(err' & [= <-] & ->)|(g & [=] & _)]]; [by left|by right].
Qed.

Lemma lossLines_elem_of entries e :
  e ∈ lossLines entries ↔
  ∃ chanID amtLost,
    (chanID, amtLost) ∈ entries ∧
    e = Printf "FakeChannel(%v) resulted in loss of: %v"
               [VCid chanID; VAmount amtLost].
Proof.
  unfold lossLines. rewrite list_elem_of_fmap. split.
  - intros ([chanID amtLost] & -> & Hin). by exists chanID, amtLost.
  - intros (chanID & amtLost & Hin & ->). by exists (chanID, amtLost).
Qed.

Lemma detectorLog_elem_of_iff order lndClient channels e :
  e ∈ detectorLog order lndClient channels ↔
  e = CallListChannels ∨
  e = Printf "Obtaining candidate set of invalidate channels..." [] ∨
  e = Printf "Filtering out valid channels..." [] ∨
  (∃ cid subjectiveSize,
      buildSubjectiveChanView channels !! cid = Some subjectiveSize ∧
      e ∈ channelEffects lndClient (cid, subjectiveSize)) ∨
  e = Printf "Num invalid channels found: %v"
        [VLen (size (invalidChannelsOf order lndClient
                       (buildSubjectiveChanView channels)))].
Proof.
  unfold detectorLog.
  rewrite !elem_of_app, list_elem_of_singleton, !elem_of_cons,
    list_elem_of_bind.
  split.
  - intros [[?|[?|[?|Hnil]]]|[([cid s] & He & Hin)|?]]; eauto 6.
    + by apply elem_of_nil in Hnil.
    + apply range_elem_of in Hin. do 3 right. left. by exists cid, s.
  - intros [?|[?|[?|[(cid & s & Hview & He)|?]]]]; eauto 6.
    right; left. exists (cid, s). split; [done|]. by apply range_elem_of.
Qed.

(** The lines of a run whose channel listing succeeded. *)
Lemma main_trace_elem_of order lndClient channels e :
  ListChannels lndClient = Ok channels →
  let invalidChannels :=
    invalidChannelsOf order lndClient (buildSubjectiveChanView channels) in
  e ∈ (main order (Ok lndClient)).1 ↔
  e ∈ detectorLog order lndClient channels ∨
  (invalidChannels = ∅ ∧
   e = Printf "Your node was not affected by CVE-2019-12999!" []) ∨
  (invalidChannels ≠ ∅ ∧
   (e = Printf "Quantifying amount lost due to forwards over invalid channels..." [] ∨
    e = CallForwardingHistory ∨
    match ForwardingHistory lndClient with
    | Err err =>
        e = Fatalf "unable to obtain forwarding history: %v" [VErr err]
    | Ok events =>
        e ∈ lossLines (range order (quantify invalidChannels events)) ∨
        e = Printf "Amount lost: %v"
              [VAmount (int64 (ledgerSum (quantify invalidChannels events)))]
    end)).
Proof.
  intros Hlist. rewrite (main_detector _ _ _ Hlist). cbv zeta.
  destruct (decide (size _ = 0%nat)) as [Hsize|Hsize].
  - apply size_empty_inv, leibniz_equiv in Hsize. cbn [fst].
    rewrite elem_of_app, list_elem_of_singleton. split.
    + intros [?|?]; [by left|right; by left].
    + intros [?|[[_ ?]|[Hne _]]]; [by left|by right|done].
  - assert (invalidChannelsOf order lndClient
              (buildSubjectiveChanView channels) ≠ ∅) as Hne.
    { intros Hempty. apply Hsize. by rewrite Hempty, size_empty. }
    destruct (ForwardingHistory lndClient) as [events|err]; cbn [fst];
      rewrite !elem_of_app, ?list_elem_of_singleton, !elem_of_cons.
    + split.
      * intros [[?|[?|[?|Hnil]]]|[?|?]]; eauto 8.
        by apply elem_of_nil in Hnil.
      * intros [?|[[Hempty _]|[_ [?|[?|[?|?]]]]]]; eauto 8. done.
    + split.
      * intros [[?|[?|[?|Hnil]]]|?]; eauto 8.
        by apply elem_of_nil in Hnil.
      * intros [?|[[Hempty _]|[_ [?|[?|?]]]]]; eauto 8. done.
Qed.

(** ** The subjective view as a whole *)

Lemma buildSubjectiveChanView_dom channels cid :
  cid ∈ dom (buildSubjectiveChanView channels) ↔
  ∃ channel, channel ∈ channels ∧ NewShortChanIDFromInt (ChanId channel) = cid.
Proof.
  induction channels as [|channel channels IH] using rev_ind.
  - split; [intros Hin|intros (c & Hin & _)].
    + unfold buildSubjectiveChanView in Hin. simpl in Hin.
      rewrite dom_empty_L in Hin. by apply not_elem_of_empty in Hin.
    + by apply elem_of_nil in Hin.
  - rewrite buildSubjectiveChanView_snoc, dom_insert_L, elem_of_union,
      elem_of_singleton, IH.
    setoid_rewrite elem_of_app. setoid_rewrite list_elem_of_singleton.
    split.
    + intros [-> |(c & ? & ?)]; eauto.
    + intros (c & [?| ->] & ?); eauto.
Qed.

Lemma buildSubjectiveChanView_size channels :
  (size (buildSubjectiveChanView channels) ≤ length channels)%nat.
Proof.
  induction channels as [|channel channels IH] using rev_ind; [done|].
  rewrite buildSubjectiveChanView_snoc, length_app, map_size_insert. simpl.
  destruct (_ !! _); simpl; lia.
Qed.

Lemma buildSubjectiveChanView_list_to_map channels :
  buildSubjectiveChanView channels =
  list_to_map
    (reverse
       ((λ c, (NewShortChanIDFromInt (ChanId c), Capacity c)) <$> channels)).
Proof.
  induction channels as [|channel channels IH] using rev_ind; [done|].
  rewrite buildSubjectiveChanView_snoc, fmap_app.
  change (?f <$> [channel]) with [f channel].
  by rewrite reverse_snoc, list_to_map_cons, IH.
Qed.

(** ** The channel graph queries of a trace *)

Lemma getChanInfoCalls_app l1 l2 :
  getChanInfoCalls (l1 ++ l2) = getChanInfoCalls l1 ++ getChanInfoCalls l2.
Proof. apply omap_app. Qed.

Lemma getChanInfoCalls_channelEffects lndClient cid subjectiveSize :
  getChanInfoCalls (channelEffects lndClient (cid, subjectiveSize)) =
  [ToUint64 cid].
Proof.
  unfold channelEffects, checkChannel.
  destruct (GetChanInfo lndClient (ToUint64 cid)) as [graphChan|err];
    [destruct (decide (EdgeCapacity graphChan ≠ subjectiveSize))|]; done.
Qed.

Lemma getChanInfoCalls_detector lndClient entries :
  getChanInfoCalls (entries ≫= channelEffects lndClient) =
  (λ entry, ToUint64 entry.1) <$> entries.
Proof.
  induction entries as [|[cid subjectiveSize] entries IH]; [done|].
  rewrite bind_cons, getChanInfoCalls_app, getChanInfoCalls_channelEffects.
  by rewrite IH.
Qed.

Lemma getChanInfoCalls_lossLines entries :
  getChanInfoCalls (lossLines entries) = [].
Proof. induction entries as [|entry entries IH]; [done|]. exact IH. Qed.

Lemma getChanInfoCalls_main order lndClient channels :
  ListChannels lndClient = Ok channels →
  getChanInfoCalls (main order (Ok lndClient)).1 =
  (λ entry, ToUint64 entry.1)
    <$> range order (buildSubjectiveChanView channels).
Proof.
  intros Hlist. rewrite (main_detector _ _ _ Hlist). cbv zeta.
  assert (Hdet : getChanInfoCalls (detectorLog order lndClient channels) =
                 (λ entry, ToUint64 entry.1)
                   <$> range order (buildSubjectiveChanView channels)).
  { unfold detectorLog.
    rewrite !getChanInfoCalls_app, getChanInfoCalls_detector. simpl.
    by rewrite app_nil_r. }
  destruct (decide (size _ = 0%nat)).
  - cbn [fst]. rewrite getChanInfoCalls_app, Hdet. simpl.
    by rewrite app_nil_r.
  - destruct (ForwardingHistory lndClient) as [events|err]; cbn [fst];
      rewrite !getChanInfoCalls_app, ?getChanInfoCalls_lossLines, Hdet;
      simpl; by rewrite ?app_nil_r.
Qed.

(** ** Two iteration orders *)

Lemma range_order_perm order order' (m : gmap ShortChannelID Z) :
  range order m ≡ₚ range order' m.
Proof. by rewrite (range_perm order), (range_perm order'). Qed.

Lemma detectorLog_order_perm order order' lndClient channels :
  detectorLog order lndClient channels ≡ₚ
  detectorLog order' lndClient channels.
Proof.
  unfold detectorLog.
  rewrite (invalidChannelsOf_order order order').
  by rewrite (range_order_perm order order').
Qed.

Lemma main_trace_order_perm order order' NewBasicClient :
  (main order NewBasicClient).1 ≡ₚ (main order' NewBasicClient).1.
Proof.
  destruct NewBasicClient as [lndClient|err]; [|done].
  destruct (ListChannels lndClient) as [channels|err] eqn:Hlist.
  - rewrite !(main_detector _ _ _ Hlist). cbv zeta.
    rewrite (invalidChannelsOf_order order order').
    destruct (decide (size _ = 0%nat)).
    + cbn [fst]. by rewrite (detectorLog_order_perm order order').
    + destruct (ForwardingHistory lndClient) as [events|err]; cbn [fst].
      * unfold lossLines.
        rewrite (detectorLog_order_perm order order').
        by rewrite (range_order_perm order order').
      * by rewrite (detectorLog_order_perm order order').
  - unfold main. by rewrite Hlist.
Qed.

Lemma sumProcessed_app invalidChannels amount events1 events2 :
  sumProcessed invalidChannels amount (events1 ++ events2) =
  sumProcessed invalidChannels amount events1
  + sumProcessed invalidChannels amount events2.
Proof.
  unfold sumProcessed. rewrite filter_app.
  induction (filter _ events1) as [|e l IH]; simpl; lia.
Qed.

Lemma quantify_lookup_range invalidChannels events cid amount :
  quantify invalidChannels events !! cid = Some amount → is_int64 amount.
Proof.
  intros Hcid.
  by apply (foldl_recordForward_range invalidChannels events ∅
              (map_Forall_empty _) cid amount).
Qed.

Lemma quantify_lookup_default invalidChannels events cid :
  default 0 (quantify invalidChannels events !! cid) =
  int64 (sumProcessed invalidChannels (contribution cid) events).
Proof.
  rewrite <- (int64_small (default 0 _)).
  - unfold quantify. rewrite foldl_recordForward_lookup_int64.
    by rewrite lookup_empty.
  - destruct (quantify invalidChannels events !! cid) as [amount|] eqn:Hcid.
    + by apply quantify_lookup_range in Hcid.
    + unfold is_int64. simpl. lia.
Qed.

Lemma quantify_dom invalidChannels events cid :
  cid ∈ dom (quantify invalidChannels events) ↔
  ∃ fwdEvent,
    fwdEvent ∈ events ∧ touchesInvalid invalidChannels fwdEvent ∧
    (cid = NewShortChanIDFromInt (ChanIdIn fwdEvent) ∨
     cid = NewShortChanIDFromInt (ChanIdOut fwdEvent)).
Proof.
  unfold quantify. rewrite foldl_recordForward_dom, dom_empty_L.
  split; [|by right]. intros [Hin|?]; [|done].
  by apply not_elem_of_empty in Hin.
Qed.

(** C3: when some channel is invalid and every forwarding event has
    fee = amount-in - amount-out, the run computes a total loss of exactly
    0 and prints it, after one breakdown line per ledger entry.  The
    ledger is the one the loop over the events builds: its keys are the
    inbound and the outbound channels of the processed events (those with
    an invalid inbound or outbound channel), and its entry for a channel is
    the wrapped sum, over the processed events, of -(amount-in - fee) for
    each event with the channel inbound and +amount-out for each event
    with the channel outbound.  The two amounts of each event cancel, and
    the entries of the ledger sum to zero. *)
Theorem balanced_fees_total_zero order lndClient channels events :
  ListChannels lndClient = Ok channels →
  let invalidChannels :=
    invalidChannelsOf order lndClient (buildSubjectiveChanView channels) in
  invalidChannels ≠ ∅ →
  ForwardingHistory lndClient = Ok events →
  Forall (λ e, Fee e = AmtIn e - AmtOut e) events →
  let chanForwardHistory := quantify invalidChannels events in
  main order (Ok lndClient) =
    (detectorLog order lndClient channels
       ++ [Printf "Quantifying amount lost due to forwards over invalid channels..." [];
           CallForwardingHistory]
       ++ lossLines (range order chanForwardHistory)
       ++ [Printf "Amount lost: %v" [VAmount 0]],
     Quantified chanForwardHistory 0) ∧
  (∀ cid,
     cid ∈ dom chanForwardHistory ↔
     ∃ fwdEvent,
       fwdEvent ∈ events ∧ touchesInvalid invalidChannels fwdEvent ∧
       (cid = NewShortChanIDFromInt (ChanIdIn fwdEvent) ∨
        cid = NewShortChanIDFromInt (ChanIdOut fwdEvent))) ∧
  (∀ cid,
     default 0 (chanForwardHistory !! cid) =
     int64 (sumProcessed invalidChannels (contribution cid) events)) ∧
  (∀ fwdEvent,
     fwdEvent ∈ events →
     - (AmtIn fwdEvent - Fee fwdEvent) + AmtOut fwdEvent = 0) ∧
  sumProcessed invalidChannels (λ e, AmtOut e - (AmtIn e - Fee e)) events = 0 ∧
  int64 (sumAmounts (map_to_list chanForwardHistory)) = 0.
Proof.
  intros Hlist invalidChannels Hne Hhist Hfees chanForwardHistory.
  assert (Hnet : sumProcessed invalidChannels
                   (λ e, AmtOut e - (AmtIn e - Fee e)) events = 0).
  { unfold sumProcessed. clear Hhist.
    induction Hfees as [|fwdEvent events Hfee _ IH]; [done|].
    rewrite filter_cons.
    destruct (decide (touchesInvalid invalidChannels fwdEvent)); [|done].
    simpl. rewrite IH. lia. }
  assert (Hsum : int64 (ledgerSum chanForwardHistory) = 0).
  { unfold chanForwardHistory, quantify.
    rewrite foldl_recordForward_ledgerSum, ledgerSum_empty, Hnet.
    reflexivity. }
  split; [|split; [|split; [|split; [|split]]]].
  - rewrite (main_detector _ _ _ Hlist). cbv zeta.
    fold invalidChannels.
    rewrite decide_False by (by intros ?%size_empty_inv%leibniz_equiv).
    rewrite Hhist. fold chanForwardHistory. rewrite Hsum.
    by rewrite <- !app_assoc.
  - intros cid. apply quantify_dom.
  - intros cid. apply quantify_lookup_default.
  - intros fwdEvent Hin. eapply Forall_forall in Hfees; [|exact Hin].
    simpl in Hfees. lia.
  - exact Hnet.
  - exact Hsum.
Qed.

Lemma balanced_fees_total_zero_witness :
  let channels :=
    [mkChannel chanA 500000; mkChannel chanB 300000; mkChannel chanA 700000] in
  let events := [forwardAB; forwardBC; forwardBA] in
  let invalidChannels :=
    invalidChannelsOf canonicalOrder nodeTwoChannels
      (buildSubjectiveChanView channels) in
  let chanForwardHistory := quantify invalidChannels events in
  main canonicalOrder (Ok nodeTwoChannels) =
    (detectorLog canonicalOrder nodeTwoChannels channels
       ++ [Printf "Quantifying amount lost due to forwards over invalid channels..." [];
           CallForwardingHistory]
       ++ lossLines (range canonicalOrder chanForwardHistory)
       ++ [Printf "Amount lost: %v" [VAmount 0]],
     Quantified chanForwardHistory 0) ∧
  (∀ cid,
     cid ∈ dom chanForwardHistory ↔
     ∃ fwdEvent,
       fwdEvent ∈ events ∧ touchesInvalid invalidChannels fwdEvent ∧
       (cid = NewShortChanIDFromInt (ChanIdIn fwdEvent) ∨
        cid = NewShortChanIDFromInt (ChanIdOut fwdEvent))) ∧
  (∀ cid,
     default 0 (chanForwardHistory !! cid) =
     int64 (sumProcessed invalidChannels (contribution cid) events)) ∧
  (∀ fwdEvent,
     fwdEvent ∈ events →
     - (AmtIn fwdEvent - Fee fwdEvent) + AmtOut fwdEvent = 0) ∧
  sumProcessed invalidChannels (λ e, AmtOut e - (AmtIn e - Fee e)) events = 0 ∧
  int64 (sumAmounts (map_to_list chanForwardHistory)) = 0.
Proof.
  apply (balanced_fees_total_zero canonicalOrder nodeTwoChannels
           [mkChannel chanA 500000; mkChannel chanB 300000;
            mkChannel chanA 700000]
           [forwardAB; forwardBC; forwardBA]).
  - reflexivity.
  - intros Hempty. vm_compute in Hempty. discriminate Hempty.
  - reflexivity.
  - repeat constructor.
Defined.

(** * Further theorems *)

(** X1: the keys of the subjective view are the decoded ids of the listed
    channels, no more and no fewer, and the view has at most one entry per
    listed channel. *)
Theorem subjective_view_keys channels cid :
  (cid ∈ dom (buildSubjectiveChanView channels) ↔
   ∃ channel,
     channel ∈ channels ∧ NewShortChanIDFromInt (ChanId channel) = cid) ∧
  (size (buildSubjectiveChanView channels) ≤ length channels)%nat.
Proof.
  split; [apply buildSubjectiveChanView_dom|apply buildSubjectiveChanView_size].
Qed.

(** X2: when no channel id is listed twice, the order of the channel
    listing does not matter: a permuted listing gives the same view. *)
Theorem listing_order_irrelevant channels channels' :
  NoDup ((λ c, NewShortChanIDFromInt (ChanId c)) <$> channels) →
  channels ≡ₚ channels' →
  buildSubjectiveChanView channels = buildSubjectiveChanView channels'.
Proof.
  intros Hnd Hp. rewrite !buildSubjectiveChanView_list_to_map.
  apply list_to_map_proper.
  - rewrite <- fmap_reverse, <- list_fmap_compose.
    by rewrite fmap_reverse, reverse_Permutation.
  - by rewrite !reverse_Permutation, Hp.
Qed.

Lemma listing_order_irrelevant_witness :
  buildSubjectiveChanView [mkChannel chanA 500000; mkChannel chanB 300000] =
  buildSubjectiveChanView [mkChannel chanB 300000; mkChannel chanA 500000].
Proof.
  apply listing_order_irrelevant.
  - apply NoDup_cons. split.
    + intros Hin%list_elem_of_singleton. vm_compute in Hin. discriminate Hin.
    + apply NoDup_singleton.
  - apply perm_swap.
Defined.

(** X3: after a successful listing of channels with 64-bit ids, the
    channel graph is queried for exactly the listed ids, once each, also
    for an id that is listed several times. *)
Theorem graph_queried_once_per_listed_id order lndClient channels :
  ListChannels lndClient = Ok channels →
  Forall (λ c, is_uint64 (ChanId c)) channels →
  let calls := getChanInfoCalls (main order (Ok lndClient)).1 in
  NoDup calls ∧
  ∀ chanId,
    chanId ∈ calls ↔ ∃ channel, channel ∈ channels ∧ ChanId channel = chanId.
Proof.
  intros Hlist Hwf calls. unfold calls.
  rewrite (getChanInfoCalls_main _ _ _ Hlist).
  assert (Hkey : ∀ entry,
             entry ∈ range order (buildSubjectiveChanView channels) →
             ∃ channel,
               channel ∈ channels ∧
               entry.1 = NewShortChanIDFromInt (ChanId channel) ∧
               ToUint64 entry.1 = ChanId channel).
  { intros [cid s] Hin%range_elem_of.
    assert (cid ∈ dom (buildSubjectiveChanView channels)) as Hdom
      by (apply elem_of_dom; by eexists).
    apply buildSubjectiveChanView_dom in Hdom as (c & Hc & <-).
    exists c. split; [done|]. split; [done|]. simpl.
    apply ToUint64_NewShortChanIDFromInt.
    by eapply Forall_forall in Hwf. }
  split.
  - apply NoDup_fmap_2_strong.
    + intros [cid1 s1] [cid2 s2] Hin1 Hin2 Heq.
      destruct (Hkey _ Hin1) as (c1 & _ & Hc1 & Hu1).
      destruct (Hkey _ Hin2) as (c2 & _ & Hc2 & Hu2).
      simpl in *. assert (cid1 = cid2) as -> by congruence.
      apply range_elem_of in Hin1, Hin2. congruence.
    + eapply NoDup_fmap_1. apply range_NoDup_fst.
  - intros chanId. rewrite list_elem_of_fmap. split.
    + intros (entry & -> & Hin).
      destruct (Hkey _ Hin) as (c & Hc & _ & Hu). by exists c.
    + intros (c & Hc & <-).
      assert (NewShortChanIDFromInt (ChanId c)
                ∈ dom (buildSubjectiveChanView channels)) as Hdom
        by (apply buildSubjectiveChanView_dom; by exists c).
      apply elem_of_dom in Hdom as [s Hs].
      exists (NewShortChanIDFromInt (ChanId c), s). split.
      * simpl. symmetry. apply ToUint64_NewShortChanIDFromInt.
        by eapply Forall_forall in Hwf.
      * by apply range_elem_of.
Qed.

Lemma graph_queried_once_per_listed_id_witness :
  let calls := getChanInfoCalls (main canonicalOrder (Ok nodeTwoChannels)).1 in
  NoDup calls ∧
  ∀ chanId,
    chanId ∈ calls ↔
    ∃ channel,
      channel ∈ [mkChannel chanA 500000; mkChannel chanB 300000;
                 mkChannel chanA 700000] ∧
      ChanId channel = chanId.
Proof.
  apply (graph_queried_once_per_listed_id canonicalOrder nodeTwoChannels).
  - reflexivity.
  - repeat constructor; vm_compute; congruence.
Defined.

(** X4: Go's map iteration order changes neither how a run ends nor which
    effects it has: two iteration orders give the same outcome, and traces
    that are permutations of each other. *)
Theorem map_order_only_reorders_trace order order' NewBasicClient :
  (main order NewBasicClient).2 = (main order' NewBasicClient).2 ∧
  (main order NewBasicClient).1 ≡ₚ (main order' NewBasicClient).1.
Proof. split; [apply main_outcome_order|apply main_trace_order_perm]. Qed.

(** X5: the three ways a run exits fatally, and no other: the client
    cannot be created, the channel listing fails, or some channel is
    invalid and the forwarding history fails. *)
Theorem fatal_exit_causes order NewBasicClient :
  (main order NewBasicClient).2 = Exited ↔
  is_Err NewBasicClient ∨
  ∃ lndClient,
    NewBasicClient = Ok lndClient ∧
    (is_Err (ListChannels lndClient) ∨
     ∃ channels,
       ListChannels lndClient = Ok channels ∧
       invalidChannelsOf order lndClient (buildSubjectiveChanView channels)
         ≠ ∅ ∧
       is_Err (ForwardingHistory lndClient)).
Proof.
  destruct NewBasicClient as [lndClient|err].
  - rewrite main_exits_iff. split.
    + intros H. right. by exists lndClient.
    + by intros [[]|(lndClient' & [= <-] & H)].
  - simpl. split; [by left|done].
Qed.

(** X7: the forwarding history is requested exactly when the channel
    listing succeeded and at least one channel was found invalid. *)
Theorem forwarding_history_requested_iff order lndClient :
  CallForwardingHistory ∈ (main order (Ok lndClient)).1 ↔
  ∃ channels,
    ListChannels lndClient = Ok channels ∧
    invalidChannelsOf order lndClient (buildSubjectiveChanView channels) ≠ ∅.
Proof.
  destruct (ListChannels lndClient) as [channels|err] eqn:Hlist.
  - rewrite (main_trace_elem_of _ _ _ _ Hlist). cbv zeta. split.
    + intros [Hdet|[[_ [=]]|[Hne _]]]; [|by exists channels].
      apply detectorLog_elem_of in Hdet
        as [[=]|[(format & args & [=] & _)|Hdet]]. done.
    + intros (channels' & [= <-] & Hne). right; right. split; [done|].
      right. by left.
  - unfold main. rewrite Hlist. simpl. split.
    + intros Hin. not_listed Hin.
    + by intros (channels & [=] & _).
Qed.

(** X8: the "unable to obtain graph channel" line is logged for a channel
    and an error exactly when the channel is in the subjective view and its
    channel graph query failed with that error. *)
Theorem failure_lines_match_failed_queries order lndClient cid err :
  Printf "unable to obtain graph channel for cid(%v): %v"
         [VCid cid; VErr err] ∈ (main order (Ok lndClient)).1 ↔
  ∃ channels,
    ListChannels lndClient = Ok channels ∧
    cid ∈ dom (buildSubjectiveChanView channels) ∧
    GetChanInfo lndClient (ToUint64 cid) = Err err.
Proof.
  destruct (ListChannels lndClient) as [channels|err'] eqn:Hlist.
  - rewrite (main_trace_elem_of _ _ _ _ Hlist). cbv zeta. split.
    + intros [Hdet|[[_ [=]]|[_ [[=]|[[=]|Hrest]]]]].
      * apply detectorLog_elem_of_iff in Hdet
          as [[=]|[[=]|[[=]|[(cid' & s & Hview & He)|[=]]]]].
        apply channelEffects_elem_of in He
          as [[=]|[(err'' & Hq & [= <- <-])|(g & _ & _ & He)]].
        -- exists channels. split; [done|]. split; [|done].
           apply elem_of_dom. by eexists.
        -- not_listed He.
      * destruct (ForwardingHistory lndClient) as [events|err''];
          [|discriminate Hrest].
        destruct Hrest as [(c & a & _ & [=])%lossLines_elem_of|[=]].
    + intros (channels' & [= <-] & [s Hs]%elem_of_dom & Hq). left.
      apply detectorLog_elem_of_iff. do 3 right. left. exists cid, s.
      split; [done|]. apply channelEffects_elem_of. right; left.
      by exists err.
  - unfold main. rewrite Hlist. simpl. split.
    + intros Hin. not_listed Hin.
    + by intros (channels & [=] & _).
Qed.

(** X9: the forwarding events that touch no invalid channel have no
    bearing on the ledger: dropping them from the history gives the same
    ledger, and a history in which no event touches an invalid channel
    gives the empty ledger. *)
Theorem skipped_events_leave_ledger invalidChannels events :
  quantify invalidChannels events =
    quantify invalidChannels (filter (touchesInvalid invalidChannels) events) ∧
  (Forall (λ e, ¬ touchesInvalid invalidChannels e) events →
   quantify invalidChannels events = ∅).
Proof.
  split; [apply foldl_recordForward_filter|].
  intros Hnone. unfold quantify.
  rewrite foldl_recordForward_filter. by rewrite (filter_none _ _ Hnone).
Qed.

(** X10: the keys of the ledger are the inbound and the outbound channels
    of the events that touch an invalid channel: both channels of such an
    event get an entry, whether invalid themselves or not, and no other
    channel does. *)
Theorem ledger_keys_are_legs_of_processed_events invalidChannels events cid :
  cid ∈ dom (quantify invalidChannels events) ↔
  ∃ fwdEvent,
    fwdEvent ∈ events ∧ touchesInvalid invalidChannels fwdEvent ∧
    (cid = NewShortChanIDFromInt (ChanIdIn fwdEvent) ∨
     cid = NewShortChanIDFromInt (ChanIdOut fwdEvent)).
Proof. apply quantify_dom. Qed.

(** X11: reading the ledger at a channel (zero when it has no entry)
    gives the sum, wrapped to 64 bits, over the events that touch an
    invalid channel, of -(AmtIn - Fee) for each event with this channel
    inbound and +AmtOut for each event with this channel outbound. *)
Theorem ledger_entry_is_wrapped_sum invalidChannels events cid :
  default 0 (quantify invalidChannels events !! cid) =
  int64 (sumProcessed invalidChannels (contribution cid) events).
Proof. apply quantify_lookup_default. Qed.

(** X12: when some channel is invalid and the forwarding history is
    obtained, the run ends with the ledger of that history and, as total
    loss, the sum over the events that touch an invalid channel of
    AmtOut - (AmtIn - Fee), wrapped to 64 bits. *)
Theorem total_loss_is_wrapped_net order lndClient channels events :
  ListChannels lndClient = Ok channels →
  let invalidChannels :=
    invalidChannelsOf order lndClient (buildSubjectiveChanView channels) in
  invalidChannels ≠ ∅ →
  ForwardingHistory lndClient = Ok events →
  (main order (Ok lndClient)).2 =
  Quantified
    (quantify invalidChannels events)
    (int64 (sumProcessed invalidChannels
              (λ e, AmtOut e - (AmtIn e - Fee e)) events)).
Proof.
  intros Hlist invalidChannels Hne Hhist.
  rewrite (main_detector _ _ _ Hlist). cbv zeta.
  rewrite decide_False by (by intros ?%size_empty_inv%leibniz_equiv).
  rewrite Hhist. cbn [snd]. f_equal. unfold quantify.
  rewrite foldl_recordForward_ledgerSum, ledgerSum_empty.
  f_equal.
Qed.

Lemma total_loss_is_wrapped_net_witness :
  let invalidChannels :=
    invalidChannelsOf canonicalOrder nodeTwoChannels
      (buildSubjectiveChanView
         [mkChannel chanA 500000; mkChannel chanB 300000;
          mkChannel chanA 700000]) in
  (main canonicalOrder (Ok nodeTwoChannels)).2 =
  Quantified
    (quantify invalidChannels [forwardAB; forwardBC; forwardBA])
    (int64 (sumProcessed invalidChannels
              (λ e, AmtOut e - (AmtIn e - Fee e))
              [forwardAB; forwardBC; forwardBA])).
Proof.
  apply (total_loss_is_wrapped_net canonicalOrder nodeTwoChannels).
  - reflexivity.
  - intros Hempty. vm_compute in Hempty. discriminate Hempty.
  - reflexivity.
Defined.

(** X13: the per-channel breakdown prints one line for each entry of the
    ledger and nothing else: a "FakeChannel" line with a channel and an
    amount is in the trace exactly when the listing succeeded, some channel
    is invalid, the forwarding history was obtained, and the ledger holds
    that amount for that channel. *)
Theorem breakdown_lines_match_ledger order lndClient cid amount :
  Printf "FakeChannel(%v) resulted in loss of: %v"
         [VCid cid; VAmount amount] ∈ (main order (Ok lndClient)).1 ↔
  ∃ channels events,
    ListChannels lndClient = Ok channels ∧
    ForwardingHistory lndClient = Ok events ∧
    invalidChannelsOf order lndClient (buildSubjectiveChanView channels) ≠ ∅ ∧
    quantify
      (invalidChannelsOf order lndClient (buildSubjectiveChanView channels))
      events !! cid = Some amount.
Proof.
  destruct (ListChannels lndClient) as [channels|err] eqn:Hlist.
  - rewrite (main_trace_elem_of _ _ _ _ Hlist). cbv zeta. split.
    + intros [Hdet|[[_ [=]]|[Hne [[=]|[[=]|Hrest]]]]].
      * apply detectorLog_elem_of in Hdet
          as [[=]|[(format & args & [= <- <-] & Hfmt)|Hdet]].
        -- not_listed Hfmt.
        -- discriminate Hdet.
      * destruct (ForwardingHistory lndClient) as [events|err];
          [|discriminate Hrest].
        destruct Hrest as [(c & a & Hin & [= <- <-])%lossLines_elem_of|[=]].
        exists channels, events. apply range_elem_of in Hin. done.
    + intros (channels' & events & [= <-] & Hhist & Hne & Hcid).
      right; right. split; [done|]. do 2 right. rewrite Hhist. left.
      apply lossLines_elem_of. exists cid, amount. split; [|done].
      by apply range_elem_of.
  - unfold main. rewrite Hlist. simpl. split.
    + intros Hin. not_listed Hin.
    + by intros (channels & events & [=] & _).
Qed.

(** X14: the ledger of a history in two parts is the entry-wise wrapped
    sum of the ledgers of the parts. *)
Theorem ledger_of_concatenation invalidChannels events1 events2 :
  quantify invalidChannels (events1 ++ events2) =
  mergeLedgers (quantify invalidChannels events1)
               (quantify invalidChannels events2).
Proof.
  apply map_eq. intros cid. unfold mergeLedgers.
  rewrite lookup_union_with.
  pose proof (quantify_lookup_default invalidChannels (events1 ++ events2) cid)
    as H12.
  pose proof (quantify_lookup_default invalidChannels events1 cid) as H1.
  pose proof (quantify_lookup_default invalidChannels events2 cid) as H2.
  rewrite sumProcessed_app, <- int64_add_l, <- int64_add_r in H12.
  rewrite <- H1, <- H2 in H12. clear H1 H2.
  assert (Hdom : is_Some (quantify invalidChannels (events1 ++ events2) !! cid)
                 ↔ is_Some (quantify invalidChannels events1 !! cid)
                   ∨ is_Some (quantify invalidChannels events2 !! cid)).
  { rewrite <- !elem_of_dom, !quantify_dom.
    setoid_rewrite elem_of_app. split.
    - intros (e & [?|?] & ?); [left|right]; by exists e.
    - intros [(e & ? & ?)|(e & ? & ?)]; exists e; eauto. }
  destruct (quantify invalidChannels (events1 ++ events2) !! cid)
    as [amount|] eqn:H;
    destruct (quantify invalidChannels events1 !! cid) as [a|] eqn:Ha;
    destruct (quantify invalidChannels events2 !! cid) as [b|] eqn:Hb;
    simpl in *.
  - by rewrite H12.
  - rewrite H12, Z.add_0_r. f_equal.
    apply int64_small. by apply quantify_lookup_range in Ha.
  - rewrite H12, Z.add_0_l. f_equal.
    apply int64_small. by apply quantify_lookup_range in Hb.
  - destruct Hdom as [Hdom _].
    destruct (Hdom (mk_is_Some _ _ eq_refl)) as [[? [=]]|[? [=]]].
  - destruct Hdom as [_ Hdom].
    destruct (Hdom (or_introl (mk_is_Some _ _ eq_refl))) as [? [=]].
  - destruct Hdom as [_ Hdom].
    destruct (Hdom (or_introl (mk_is_Some _ _ eq_refl))) as [? [=]].
  - destruct Hdom as [_ Hdom].
    destruct (Hdom (or_intror (mk_is_Some _ _ eq_refl))) as [? [=]].
  - done.
Qed.

(** X15: the "FAKE CHANNEL FOUND" banner is logged exactly when the
    channel listing succeeded and, for some channel of the subjective view,
    the channel graph answered with a capacity other than the subjective
    one; failed queries and confirmed channels never raise it. *)
Theorem fake_channel_banner_iff_mismatch order lndClient :
  Printf "**** FAKE CHANNEL FOUND ****" [] ∈ (main order (Ok lndClient)).1 ↔
  ∃ channels cid subjectiveSize graphChan,
    ListChannels lndClient = Ok channels ∧
    buildSubjectiveChanView channels !! cid = Some subjectiveSize ∧
    GetChanInfo lndClient (ToUint64 cid) = Ok graphChan ∧
    EdgeCapacity graphChan ≠ subjectiveSize.
Proof.
  destruct (ListChannels lndClient) as [channels|err] eqn:Hlist.
  - rewrite (main_trace_elem_of _ _ _ _ Hlist). cbv zeta. split.
    + intros [Hdet|[[_ [=]]|[_ [[=]|[[=]|Hrest]]]]].
      * apply detectorLog_elem_of_iff in Hdet
          as [[=]|[[=]|[[=]|[(cid & s & Hview & Hin)|[=]]]]].
        apply channelEffects_elem_of in Hin
          as [[=]|[(err & _ & [=])|(g & Hq & Hne & _)]].
        by exists channels, cid, s, g.
      * destruct (ForwardingHistory lndClient) as [events|err];
          [|discriminate Hrest].
        destruct Hrest as [(c & a & _ & [=])%lossLines_elem_of|[=]].
    + intros (channels' & cid & s & g & [= <-] & Hview & Hq & Hne).
      left. apply detectorLog_elem_of_iff. do 3 right. left.
      exists cid, s. split; [done|]. apply channelEffects_elem_of.
      do 2 right. exists g. do 2 (split; [done|]). by constructor 1.
  - unfold main. rewrite Hlist. simpl. split.
    + intros Hin. not_listed Hin.
    + by intros (channels & ? & ? & ? & [=] & _).
Qed.

(** X16: a run reports "not affected" exactly when the channel listing
    succeeded and, for every channel of the subjective view, the channel
    graph answered with the subjective capacity. *)
Theorem not_affected_iff_all_confirmed order lndClient :
  (main order (Ok lndClient)).2 = NotAffected ↔
  ∃ channels,
    ListChannels lndClient = Ok channels ∧
    ∀ cid subjectiveSize,
      buildSubjectiveChanView channels !! cid = Some subjectiveSize →
      ∃ graphChan,
        GetChanInfo lndClient (ToUint64 cid) = Ok graphChan ∧
        EdgeCapacity graphChan = subjectiveSize.
Proof.
  destruct (ListChannels lndClient) as [channels|err] eqn:Hlist.
  - rewrite (main_detector _ _ _ Hlist). cbv zeta.
    assert (Hall :
      invalidChannelsOf order lndClient (buildSubjectiveChanView channels) = ∅
      ↔ ∀ cid subjectiveSize,
          buildSubjectiveChanView channels !! cid = Some subjectiveSize →
          ∃ graphChan,
            GetChanInfo lndClient (ToUint64 cid) = Ok graphChan ∧
            EdgeCapacity graphChan = subjectiveSize).
    { split.
      - intros Hempty cid s Hview.
        assert (¬ disagrees lndClient cid s) as Hd.
        { intros Hd.
          assert (cid ∈ invalidChannelsOf order lndClient
                          (buildSubjectiveChanView channels)) as Hin
            by (apply invalidChannelsOf_elem_of; by exists s).
          rewrite Hempty in Hin. by apply not_elem_of_empty in Hin. }
        unfold disagrees in Hd.
        destruct (GetChanInfo lndClient (ToUint64 cid)) as [g|e]; [|done].
        exists g. split; [done|].
        by destruct (decide (EdgeCapacity g = s)).
      - intros Hall. apply set_eq. intros cid.
        rewrite invalidChannelsOf_elem_of. split.
        + intros (s & Hview & Hd). destruct (Hall _ _ Hview) as (g & Hq & Hg).
          unfold disagrees in Hd. rewrite Hq in Hd. done.
        + intros Hin. by apply not_elem_of_empty in Hin. }
    destruct (decide (size _ = 0%nat)) as [Hsize|Hsize].
    + apply size_empty_inv, leibniz_equiv in Hsize. split; [|done].
      intros _. exists channels. split; [done|]. by apply Hall.
    + split.
      * by destruct (ForwardingHistory lndClient).
      * intros (channels' & [= <-] & Hconf). apply Hall in Hconf.
        rewrite Hconf, size_empty in Hsize. done.
  - unfold main. rewrite Hlist. simpl. split; [done|].
    by intros (channels & [=] & _).
Qed.
